(** * Coalition search and agreement scoring of the coalition simulator

    A shallow embedding of the coalition engine of [app.js]
    ([findBestCoalitions], [generateMajorityCoalitions], [getCombinations]
    and [calculateCoalitionAgreement]) together with the properties the
    specification states about it, and of the code around the engine: the
    loader of the roster, the selection ([handleDrop], [applyCoalition]),
    the party cards, the coalition bar, the views of a statement, the
    agreement overview and the list of suggestions.  A function that
    writes to the page is embedded as the function from the globals to the
    values it writes.

    Conventions of the embedding:
    - the globals [parties] and [statements] are explicit parameters;
    - seat counts are integers ([Z]), array lengths and indices are natural
      numbers, and every other JavaScript number is a [number]: an exact
      rational, or one of the three non-finite values [Infinity],
      [-Infinity] and [NaN].  The rounding error of binary64 arithmetic and
      the sign of zero are not modelled; the theorems on the claims and on
      the views therefore state a property of a value that is not an
      integer as a bound or a comparison that leaves room for that error,
      and as an equation where binary64 arithmetic gives the same value;
    - a [for] loop that pushes onto an array is a left fold whose
      accumulator is the array. *)

From Stdlib Require Import ZArith QArith Qcanon Qround Lia Lqa.
From stdpp Require Import base decidable list numbers strings gmap sorting.

Local Open Scope Z_scope.

(** ** Data model *)

(** A roster entry.  The loader also stores [party], [votes] and [nosName];
    the engine reads [name] and [seats] only. *)
Record Party : Type := mkParty { name : string; seats : Z }.

#[global] Instance Party_eq_dec : EqDecision Party.
Proof. solve_decision. Defined.

(** A value found in [statement.positions]: the engine compares it with
    [===] against the numbers 1, 0 and -1, so a string or [null] matches
    none of them. *)
Inductive JsValue : Type :=
  | JNumber (z : Z)
  | JString (s : string)
  | JNull.

#[global] Instance JsValue_eq_dec : EqDecision JsValue.
Proof. solve_decision. Defined.

(** [v === k] for a number literal [k]. *)
Definition strict_eq_num (v : option JsValue) (k : Z) : bool :=
  match v with
  | Some (JNumber z) => Z.eqb z k
  | _ => false
  end.

Record Statement : Type := mkStatement { positions : gmap string JsValue }.

(** ** Loops *)

(** [for (const x of xs) body] with the loop state threaded through. *)
Definition for_of {A S : Type} (xs : list A) (init : S) (body : S → A → S) : S :=
  fold_left body xs init.

(** [arr.push(x)]. *)
Definition push {A : Type} (arr : list A) (x : A) : list A := arr ++ [x].

(** [coalition.reduce((sum, p) => sum + p.seats, 0)]. *)
Definition sum_seats (coalition : list Party) : Z :=
  fold_left (λ sum p, sum + seats p) coalition 0.

(** ** The generator *)

(** [getCombinations(arr, size)].  The indices of the [for] loop are
    [0 .. arr.length - size]; none exists when [size] exceeds the length,
    and [arr[i]] exists at each of them.  [size] is a positive count at
    every call site; for [size = 0] the JavaScript recursion never reaches
    its base case, and the embedding returns no combination there. *)
Fixpoint getCombinations {A : Type} (arr : list A) (size : nat) : list (list A) :=
  match size with
  | O => []
  | 1%nat => (λ item, [item]) <$> arr
  | S (S _ as size') =>
      for_of (seq 0 (length arr + 1 - size)) [] (λ combinations i,
        match arr !! i with
        | Some head =>
            let tailCombos := getCombinations (drop (i + 1) arr) size' in
            for_of tailCombos combinations (λ combinations tail,
              push combinations (head :: tail))
        | None => combinations
        end)
  end.

(** Truthiness of the optional [requiredPartyName] argument: [null] (the
    default) and the empty string are falsy. *)
Definition truthy (requiredPartyName : option string) : bool :=
  match requiredPartyName with
  | Some s => negb (String.eqb s "")
  | None => false
  end.

(** [p.name === requiredPartyName]. *)
Definition name_is (requiredPartyName : option string) (p : Party) : bool :=
  match requiredPartyName with
  | Some s => String.eqb (name p) s
  | None => false
  end.

Definition majorityThreshold : Z := 76.

(** [generateMajorityCoalitions(requiredPartyName = null)]. *)
Definition generateMajorityCoalitions
    (parties : list Party) (requiredPartyName : option string) : list (list Party) :=
  let coalitions := [] in
  let requiredParties :=
    if truthy requiredPartyName
    then List.filter (name_is requiredPartyName) parties
    else [] in
  if truthy requiredPartyName && (length requiredParties =? 0)%nat
  then coalitions
  else
    let availableParties :=
      if truthy requiredPartyName
      then List.filter (λ p, negb (name_is requiredPartyName p)) parties
      else parties in
    let maxSize :=
      Z.min (5 - Z.of_nat (length requiredParties))
            (Z.of_nat (length availableParties)) in
    for_of (seq 1 (Z.to_nat maxSize)) coalitions (λ coalitions size,
      let combinations := getCombinations availableParties size in
      for_of combinations coalitions (λ coalitions combo,
        let coalition := requiredParties ++ combo in
        let seats := sum_seats coalition in
        if majorityThreshold <=? seats
        then push coalitions coalition
        else coalitions)).

(** ** JavaScript numbers *)

(** The values a JavaScript number takes in the scoring code: a finite
    value (kept as an exact rational), the two infinities and [NaN]. *)
Inductive number : Type :=
  | Fin (q : Qc)
  | PInf
  | NInf
  | NaN.

(** The larger of two rationals. *)
Definition Qc_max (a b : Qc) : Qc := if bool_decide (a ≤ b)%Qc then b else a.

#[global] Instance number_eq_dec : EqDecision number.
Proof. solve_decision. Defined.

Module Number.
Local Open Scope Qc_scope.

Definition of_Z (z : Z) : number := Fin (Qc_of_Z z).
Definition of_nat (n : nat) : number := of_Z (Z.of_nat n).
Definition of_Q (q : Q) : number := Fin (Q2Qc q).

(** -1, 0 or 1 for a number that is not [NaN]. *)
Definition sign (x : number) : Z :=
  match x with
  | Fin q => if bool_decide (0 < q) then 1%Z
             else if bool_decide (q < 0) then (-1)%Z else 0%Z
  | PInf => 1%Z
  | NInf => (-1)%Z
  | NaN => 0%Z
  end.

(** The infinity of a given sign; a zero sign stands for an
    indeterminate form. *)
Definition inf_of_sign (s : Z) : number :=
  if (0 <? s)%Z then PInf else if (s <? 0)%Z then NInf else NaN.

Definition neg (x : number) : number :=
  match x with
  | Fin q => Fin (- q)
  | PInf => NInf
  | NInf => PInf
  | NaN => NaN
  end.

(** [x + y] *)
Definition add (x y : number) : number :=
  match x, y with
  | NaN, _ | _, NaN => NaN
  | Fin a, Fin b => Fin (a + b)
  | PInf, NInf | NInf, PInf => NaN
  | PInf, _ | _, PInf => PInf
  | NInf, _ | _, NInf => NInf
  end.

(** [x - y] *)
Definition sub (x y : number) : number := add x (neg y).

(** [x * y] *)
Definition mul (x y : number) : number :=
  match x, y with
  | NaN, _ | _, NaN => NaN
  | Fin a, Fin b => Fin (a * b)
  | _, _ => inf_of_sign (sign x * sign y)%Z
  end.

(** [x / y]: a finite non-zero value over zero is an infinity, and
    [0 / 0] is [NaN]. *)
Definition div (x y : number) : number :=
  match x, y with
  | NaN, _ | _, NaN => NaN
  | Fin a, Fin b =>
      if bool_decide (b = 0) then inf_of_sign (sign x) else Fin (a / b)
  | Fin _, _ => Fin 0
  | _, Fin b => inf_of_sign (sign x * (if bool_decide (b = 0%Qc) then 1 else sign y))%Z
  | _, _ => NaN
  end.

(** [Math.max(x, y)] *)
Definition max (x y : number) : number :=
  match x, y with
  | NaN, _ | _, NaN => NaN
  | PInf, _ | _, PInf => PInf
  | NInf, z | z, NInf => z
  | Fin a, Fin b => Fin (Qc_max a b)
  end.

(** [Math.round(x)]: the nearest integer, a tie going up. *)
Definition round (x : number) : number :=
  match x with
  | Fin q => of_Z (Qfloor (q + Q2Qc (1 # 2))%Qc)
  | _ => x
  end.

(** [x > 0], which is false of [NaN]. *)
Definition gt0 (x : number) : bool := (0 <? sign x)%Z.

(** [x <= y] and [x < y] as JavaScript evaluates them. *)
Definition leb (x y : number) : bool :=
  match x, y with
  | NaN, _ | _, NaN => false
  | Fin a, Fin b => bool_decide (a ≤ b)
  | NInf, _ | _, PInf => true
  | _, _ => false
  end.
Definition ltb (x y : number) : bool :=
  match x, y with
  | NaN, _ | _, NaN => false
  | Fin a, Fin b => bool_decide (a < b)
  | PInf, _ | _, NInf => false
  | _, _ => true
  end.

Definition is_finite (x : number) : Prop := ∃ q, x = Fin q.
End Number.

Declare Scope number_scope.
Delimit Scope number_scope with num.
Bind Scope number_scope with number.
Infix "+" := Number.add : number_scope.
Infix "-" := Number.sub : number_scope.
Infix "*" := Number.mul : number_scope.
Infix "/" := Number.div : number_scope.

(** ** The scorer *)

(** The object literal returned by [calculateCoalitionAgreement]. *)
Record Score : Type := mkScore {
  agreementRate : number;
  averageAgreement : number;
  adjustedAgreement : number;
  coalitionSize : nat;
  totalStatements : nat;
  score_seats : Z
}.

(** One element of the [stances] array built for a statement. *)
Record Stance : Type := mkStance {
  stance_party : string;
  stance : option JsValue;
  stance_seats : Z
}.

(** [coalition.map(party => ({party: party.name, stance:
    statement.positions[party.name], seats: party.seats}))] *)
Definition stances_of (coalition : list Party) (statement : Statement) : list Stance :=
  (λ party, {| stance_party := name party;
               stance := positions statement !! name party;
               stance_seats := seats party |}) <$> coalition.

(** The three counters [agreeSeats], [neutralSeats], [disagreeSeats]. *)
Record Tally : Type := mkTally { agreeSeats : Z; neutralSeats : Z; disagreeSeats : Z }.

(** The body of [stances.forEach(s => ...)]. *)
Definition count_stance (t : Tally) (s : Stance) : Tally :=
  if strict_eq_num (stance s) 1
  then {| agreeSeats := agreeSeats t + stance_seats s;
          neutralSeats := neutralSeats t; disagreeSeats := disagreeSeats t |}
  else if strict_eq_num (stance s) 0
  then {| agreeSeats := agreeSeats t;
          neutralSeats := neutralSeats t + stance_seats s;
          disagreeSeats := disagreeSeats t |}
  else if strict_eq_num (stance s) (-1)
  then {| agreeSeats := agreeSeats t; neutralSeats := neutralSeats t;
          disagreeSeats := disagreeSeats t + stance_seats s |}
  else t.

(** "Count seats by stance". *)
Definition tally (coalition : list Party) (statement : Statement) : Tally :=
  for_of (stances_of coalition statement)
         {| agreeSeats := 0; neutralSeats := 0; disagreeSeats := 0 |}
         count_stance.

Definition totalSeats (t : Tally) : Z :=
  agreeSeats t + neutralSeats t + disagreeSeats t.

(** [Math.max(agreeSeats, neutralSeats, disagreeSeats)] *)
Definition maxSeats (t : Tally) : Z :=
  Z.max (Z.max (agreeSeats t) (neutralSeats t)) (disagreeSeats t).

(** [maxSeats / totalSeats] *)
Definition majorityFraction (t : Tally) : number :=
  (Number.of_Z (maxSeats t) / Number.of_Z (totalSeats t))%num.

(** [Math.max(0, (majorityFraction - 0.5) / 0.5)] *)
Definition agreementScore (t : Tally) : number :=
  Number.max (Number.of_Z 0)
    ((majorityFraction t - Number.of_Q (1 # 2)) / Number.of_Q (1 # 2))%num.

(** The body of [statements.forEach(statement => ...)], acting on
    [totalAgreementScore]; the early [return] leaves it as it is. *)
Definition score_statement (coalition : list Party)
    (totalAgreementScore : number) (statement : Statement) : number :=
  let t := tally coalition statement in
  if totalSeats t =? 0
  then totalAgreementScore
  else (totalAgreementScore + agreementScore t)%num.

(** [calculateCoalitionAgreement(coalition)] *)
Definition calculateCoalitionAgreement
    (coalition : list Party) (statements : list Statement) : Score :=
  let totalAgreementScore := Number.of_Z 0 in
  let totalStatements := length statements in
  let totalAgreementScore :=
    for_of statements totalAgreementScore (score_statement coalition) in
  let seats := sum_seats coalition in
  let averageAgreement :=
    (totalAgreementScore / Number.of_nat totalStatements)%num in
  let sizePenalty :=
    Number.max (Number.of_Z 0)
      (Number.of_Z (Z.of_nat (length coalition) - 2) * Number.of_Q (5 # 100))%num in
  let adjustedAgreement :=
    Number.max (Number.of_Z 0) (averageAgreement - sizePenalty)%num in
  let agreementRate := (adjustedAgreement * Number.of_Z 100)%num in
  {| agreementRate :=
       (Number.round (agreementRate * Number.of_Z 10) / Number.of_Z 10)%num;
     averageAgreement :=
       (Number.round (averageAgreement * Number.of_Z 1000) / Number.of_Z 1000)%num;
     adjustedAgreement :=
       (Number.round (adjustedAgreement * Number.of_Z 1000) / Number.of_Z 1000)%num;
     coalitionSize := length coalition;
     totalStatements := totalStatements;
     score_seats := seats |}.

(** The local variables of [calculateCoalitionAgreement], as functions of
    its inputs: [totalAgreementScore] after the loop, [averageAgreement],
    [sizePenalty] and [adjustedAgreement] (the last three before the
    rounding applied in the returned object). *)
Definition totalAgreementScore
    (coalition : list Party) (statements : list Statement) : number :=
  for_of statements (Number.of_Z 0) (score_statement coalition).

Definition rawAverageAgreement
    (coalition : list Party) (statements : list Statement) : number :=
  (totalAgreementScore coalition statements / Number.of_nat (length statements))%num.

Definition sizePenalty (coalition : list Party) : number :=
  Number.max (Number.of_Z 0)
    (Number.of_Z (Z.of_nat (length coalition) - 2) * Number.of_Q (5 # 100))%num.

Definition rawAdjustedAgreement
    (coalition : list Party) (statements : list Statement) : number :=
  Number.max (Number.of_Z 0)
    (rawAverageAgreement coalition statements - sizePenalty coalition)%num.

(** ** Ranking *)

(** An element of [scoredCoalitions]: the object [{ coalition, score }]. *)
Record Scored : Type := mkScored { coalition : list Party; score : Score }.

(** [Array.prototype.sort(comparefn)].  The sort is stable; a positive
    result of [comparefn a b] moves [b] in front of [a], and any other
    result, [NaN] included, keeps [a] in front.  Each element is inserted
    in front of the sorted rest of the array, behind the elements that the
    comparison puts first. *)
Fixpoint sort_insert {A : Type} (comparefn : A → A → number)
    (a : A) (sorted : list A) : list A :=
  match sorted with
  | [] => [a]
  | b :: rest =>
      if Number.gt0 (comparefn a b)
      then b :: sort_insert comparefn a rest
      else a :: b :: rest
  end.

Definition Array_sort {A : Type} (comparefn : A → A → number) (arr : list A) : list A :=
  fold_right (sort_insert comparefn) [] arr.

(** [(a, b) => b.score.agreementRate - a.score.agreementRate] *)
Definition by_agreement (a b : Scored) : number :=
  (agreementRate (score b) - agreementRate (score a))%num.

(** The rate of a scored coalition. *)
Definition rate (x : Scored) : number := agreementRate (score x).

(** [findBestCoalitions()]: the value is the array handed to
    [displayCoalitionSuggestions]; [requiredParty] is the value of the
    drop-down, the empty string when no party is selected. *)
Definition findBestCoalitions
    (parties : list Party) (statements : list Statement)
    (requiredParty : string) : list Scored :=
  let coalitions := generateMajorityCoalitions parties (Some requiredParty) in
  let scoredCoalitions :=
    (λ coalition,
       let score := calculateCoalitionAgreement coalition statements in
       {| coalition := coalition; score := score |}) <$> coalitions in
  let scoredCoalitions := Array_sort by_agreement scoredCoalitions in
  take 5 scoredCoalitions.

(** ** Definitions that follow the specification *)

(** The [k]-element selections of a list, in the order of the list. *)
Fixpoint selections {A : Type} (l : list A) (k : nat) : list (list A) :=
  match k, l with
  | O, _ => [[]]
  | S _, [] => []
  | S k', x :: l' => ((x ::.) <$> selections l' k') ++ selections l' k
  end.

(** The binomial coefficient C(n,k), by Pascal's rule. *)
Fixpoint binomial (n k : nat) : nat :=
  match n, k with
  | _, O => 1
  | O, S _ => 0
  | S n', S k' => binomial n' k' + binomial n' k
  end%nat.

(** The values the generator computes before its loops. *)
Definition requiredParties_of (parties : list Party) (req : option string) : list Party :=
  if truthy req then List.filter (name_is req) parties else [].

Definition availableParties_of (parties : list Party) (req : option string) : list Party :=
  if truthy req then List.filter (λ p, negb (name_is req p)) parties else parties.

Definition maxSize_of (parties : list Party) (req : option string) : Z :=
  Z.min (5 - Z.of_nat (length (requiredParties_of parties req)))
        (Z.of_nat (length (availableParties_of parties req))).

(** What one iteration of the loop of [getCombinations] adds: the
    combinations whose first element is [arr[i]]. *)
Definition combinations_at {A : Type} (arr : list A) (size' i : nat) : list (list A) :=
  match arr !! i with
  | Some head => (head ::.) <$> getCombinations (drop (i + 1) arr) size'
  | None => []
  end.

(** The scoring formula as the specification words it, over exact
    rationals. *)

(** The seats of the coalition parties whose stance on the statement is
    the number [v]. *)
Definition bucketSeats (v : Z) (coalition : list Party) (statement : Statement) : Z :=
  foldr Z.add 0
    (seats <$> filter (λ p, positions statement !! name p = Some (JNumber v)) coalition).

Definition spec_tally (coalition : list Party) (statement : Statement) : Tally :=
  {| agreeSeats := bucketSeats 1 coalition statement;
     neutralSeats := bucketSeats 0 coalition statement;
     disagreeSeats := bucketSeats (-1) coalition statement |}.

(** [max(0, (majorityFraction - 0.5) / 0.5)] for the fraction
    [maxSeats / totalSeats]. *)
Definition agreement_of_fraction (t : Tally) : Qc :=
  Qc_max 0 ((Qc_of_Z (maxSeats t) / Qc_of_Z (totalSeats t) - Q2Qc (1 # 2)) / Q2Qc (1 # 2))%Qc.

(** A statement on which no coalition party has a stance adds nothing. *)
Definition spec_statementAgreement (coalition : list Party) (statement : Statement) : Qc :=
  let t := spec_tally coalition statement in
  if decide (totalSeats t = 0) then 0%Qc else agreement_of_fraction t.

Definition Qc_sum (l : list Qc) : Qc := foldr Qcplus 0%Qc l.

Definition spec_averageAgreement (coalition : list Party) (statements : list Statement) : Qc :=
  (Qc_sum (spec_statementAgreement coalition <$> statements)
   / Qc_of_Z (Z.of_nat (length statements)))%Qc.

(** [max(0, (coalitionSize - 2) * 0.05)] *)
Definition spec_sizePenalty (coalition : list Party) : Qc :=
  Qc_max 0 (Qc_of_Z (Z.of_nat (length coalition) - 2) * Q2Qc (5 # 100))%Qc.

Definition spec_adjustedAgreement (coalition : list Party) (statements : list Statement) : Qc :=
  Qc_max 0 (spec_averageAgreement coalition statements - spec_sizePenalty coalition)%Qc.

(** Rounding to one decimal, a tie going up. *)
Definition round_1_decimal (x : Qc) : Qc :=
  (Qc_of_Z (Qfloor (x * Qc_of_Z 10 + Q2Qc (1 # 2))%Qc) / Qc_of_Z 10)%Qc.

Definition spec_agreementRate (coalition : list Party) (statements : list Statement) : Qc :=
  round_1_decimal (spec_adjustedAgreement coalition statements * Qc_of_Z 100)%Qc.

(** [scoredCoalitions] as [findBestCoalitions] builds it, before the sort. *)
Definition scored_candidates (parties : list Party) (statements : list Statement)
    (requiredParty : string) : list Scored :=
  (λ c, {| coalition := c; score := calculateCoalitionAgreement c statements |})
    <$> generateMajorityCoalitions parties (Some requiredParty).

(** [b]'s rate is at most [a]'s. *)
Definition not_below (a b : Scored) : Prop := Number.leb (rate b) (rate a) = true.

(** [b]'s rate is not greater than [a]'s; this also holds of two [NaN]. *)
Definition not_above (a b : Scored) : Prop := Number.ltb (rate a) (rate b) = false.

(** The number of parties a coalition has beyond two. *)
Definition partiesBeyondTwo (c : list Party) : Z :=
  Z.max (Z.of_nat (length c)) 2 - 2.

(** ** The selection

    [coalitionParties], the set of the names of the selected parties. *)

(** [handleDrop(e)]: the new selection, for the party name carried by the
    drag and the id of the zone that receives the drop. *)
Definition handleDrop (partyName targetZone : string)
    (coalitionParties : gset string) : gset string :=
  if String.eqb targetZone "coalitionParties"
  then {[partyName]} ∪ coalitionParties
  else coalitionParties ∖ {[partyName]}.

(** [applyCoalition(coalition)]: the selection after the [clear] and the
    [add] of every name. *)
Definition applyCoalition (coalition : list Party)
    (coalitionParties : gset string) : gset string :=
  let coalitionParties : gset string := ∅ in
  for_of coalition coalitionParties (λ coalitionParties party,
    {[name party]} ∪ coalitionParties).

(** [coalitionParties.has(party.name)] *)
Definition has (coalitionParties : gset string) (party : Party) : bool :=
  bool_decide (name party ∈ coalitionParties).

(** [calculateCoalitionSeats()] *)
Definition calculateCoalitionSeats (parties : list Party)
    (coalitionParties : gset string) : Z :=
  for_of parties 0 (λ total party,
    if has coalitionParties party then total + seats party else total).

(** What [updateCoalitionBar] writes: the two seat counts, the width of the
    bar in percent, its text and its background. *)
Record CoalitionBar : Type := mkCoalitionBar {
  bar_coalitionSeats : Z;
  bar_oppositionSeats : Z;
  bar_width : number;
  bar_text : string;
  bar_background : string
}.

(** [updateCoalitionBar()] *)
Definition updateCoalitionBar (parties : list Party)
    (coalitionParties : gset string) : CoalitionBar :=
  let coalitionSeats := calculateCoalitionSeats parties coalitionParties in
  let oppositionSeats := 150 - coalitionSeats in
  let percentage :=
    (Number.of_Z coalitionSeats / Number.of_Z 150 * Number.of_Z 100)%num in
  {| bar_coalitionSeats := coalitionSeats;
     bar_oppositionSeats := oppositionSeats;
     bar_width := percentage;
     bar_text := if 76 <=? coalitionSeats then "✓ Meerderheid" else "";
     bar_background :=
       if 76 <=? coalitionSeats
       then "linear-gradient(90deg, #28a745 0%, #20c997 100%)"
       else "linear-gradient(90deg, #ffc107 0%, #ff9800 100%)" |}.

(** ** The views of a statement *)

(** [parties.filter(p => coalitionParties.has(p.name))] *)
Definition coalitionPartiesList (parties : list Party)
    (coalitionParties : gset string) : list Party :=
  List.filter (has coalitionParties) parties.

(** The body of the loops that count seats by stance straight from the
    parties: [const stance = statement.positions[party.name]] and the three
    tests. *)
Definition count_party (statement : Statement) (t : Tally) (party : Party) : Tally :=
  let stance := positions statement !! name party in
  if strict_eq_num stance 1
  then {| agreeSeats := agreeSeats t + seats party;
          neutralSeats := neutralSeats t; disagreeSeats := disagreeSeats t |}
  else if strict_eq_num stance 0
  then {| agreeSeats := agreeSeats t;
          neutralSeats := neutralSeats t + seats party;
          disagreeSeats := disagreeSeats t |}
  else if strict_eq_num stance (-1)
  then {| agreeSeats := agreeSeats t; neutralSeats := neutralSeats t;
          disagreeSeats := disagreeSeats t + seats party |}
  else t.

(** The counters after such a loop over [listed]. *)
Definition seats_by_stance (listed : list Party) (statement : Statement) : Tally :=
  for_of listed {| agreeSeats := 0; neutralSeats := 0; disagreeSeats := 0 |}
         (count_party statement).

(** [(part / total) * 100] *)
Definition percent (part total : Z) : number :=
  (Number.of_Z part / Number.of_Z total * Number.of_Z 100)%num.

(** [x >= k] for an integer literal [k]. *)
Definition at_least (x : number) (k : Z) : bool := Number.leb (Number.of_Z k) x.

(** What [updateStatementIndicator] writes when it shows the indicator: the
    emoji, the parts of the title (the rounded rate, the majority position
    and the level) and, when the border is shown, its colour and the colour
    of the shadow. *)
Record Indicator : Type := mkIndicator {
  ind_textContent : string;
  ind_rounded : number;
  ind_majorityStance : string;
  ind_level : string;
  ind_border : option (string * string)
}.

(** [updateStatementIndicator(statement)], for an indicator element that
    exists; [None] is the cleared indicator (no text, no border). *)
Definition updateStatementIndicator (parties : list Party)
    (coalitionParties : gset string) (statement : Statement) : option Indicator :=
  if (size coalitionParties =? 0)%nat then None
  else
    let coalitionPartiesList := coalitionPartiesList parties coalitionParties in
    if (length coalitionPartiesList =? 0)%nat then None
    else
      let t := seats_by_stance coalitionPartiesList statement in
      if totalSeats t =? 0 then None
      else
        let agreementRate := percent (maxSeats t) (totalSeats t) in
        let '(majorityStance, borderColor, shadowColor, showBorder) :=
          if maxSeats t =? agreeSeats t
          then ("eens", "#28a745", "rgba(40, 167, 69, 0.15)", at_least agreementRate 60)
          else if maxSeats t =? disagreeSeats t
          then ("oneens", "#dc3545", "rgba(220, 53, 69, 0.15)", at_least agreementRate 60)
          else ("neutraal", "", "", false) in
        let '(textContent, level) :=
          if at_least agreementRate 80 then ("🤝", "Hoge eensgezindheid")
          else if at_least agreementRate 60 then ("😐", "Gemiddelde eensgezindheid")
          else ("⚡", "Verdeeld") in
        Some {| ind_textContent := textContent;
                ind_rounded := Number.round agreementRate;
                ind_majorityStance := majorityStance;
                ind_level := level;
                ind_border :=
                  if showBorder then Some (borderColor, shadowColor) else None |}.

(** What [updateConsistencyBar] writes when it shows the bar. *)
Record ConsistencyBar : Type := mkConsistencyBar {
  cons_emoji : string;
  cons_color : string;
  cons_label : string;
  cons_badgeColor : string;
  cons_badgeText : string;
  cons_rounded : number;
  cons_seats : Tally
}.

(** [updateConsistencyBar(statement)], for a bar element that exists;
    [None] is the hidden bar. *)
Definition updateConsistencyBar (parties : list Party)
    (coalitionParties : gset string) (statement : Statement) : option ConsistencyBar :=
  if (size coalitionParties =? 0)%nat then None
  else
    let coalitionPartiesList := coalitionPartiesList parties coalitionParties in
    if (length coalitionPartiesList =? 0)%nat then None
    else
      let t := seats_by_stance coalitionPartiesList statement in
      if totalSeats t =? 0 then None
      else
        let agreementRate := percent (maxSeats t) (totalSeats t) in
        let '(emoji, color, label) :=
          if at_least agreementRate 80 then ("🤝", "#28a745", "Eensgezind")
          else if at_least agreementRate 60 then ("😐", "#ffc107", "Gemiddeld")
          else ("⚡", "#dc3545", "Verdeeld") in
        let '(badgeColor, badgeText) :=
          if maxSeats t =? agreeSeats t then ("#28a745", "Meerderheid Eens")
          else if maxSeats t =? disagreeSeats t then ("#dc3545", "Meerderheid Oneens")
          else ("#6c757d", "Meerderheid Neutraal") in
        Some {| cons_emoji := emoji; cons_color := color; cons_label := label;
                cons_badgeColor := badgeColor; cons_badgeText := badgeText;
                cons_rounded := Number.round agreementRate;
                cons_seats := t |}.

(** The three counters of [updateAgreementOverview]. *)
Record Levels : Type := mkLevels { unified : nat; moderate : nat; divided : nat }.

(** The body of its loop over the statements. *)
Definition count_level (coalitionPartiesList : list Party)
    (levels : Levels) (statement : Statement) : Levels :=
  let t := seats_by_stance coalitionPartiesList statement in
  if totalSeats t =? 0 then levels
  else
    let agreementRate := percent (maxSeats t) (totalSeats t) in
    if at_least agreementRate 80
    then {| unified := S (unified levels); moderate := moderate levels;
            divided := divided levels |}
    else if at_least agreementRate 60
    then {| unified := unified levels; moderate := S (moderate levels);
            divided := divided levels |}
    else {| unified := unified levels; moderate := moderate levels;
            divided := S (divided levels) |}.

(** What [updateAgreementOverview] shows: the counters and the widths, in
    percent, of their segments. *)
Record AgreementOverview : Type := mkAgreementOverview {
  overview_levels : Levels;
  unifiedPercent : number;
  moderatePercent : number;
  dividedPercent : number
}.

(** [updateAgreementOverview()]; [None] is the hidden overview. *)
Definition updateAgreementOverview (parties : list Party)
    (statements : list Statement) (coalitionParties : gset string)
    : option AgreementOverview :=
  if (size coalitionParties =? 0)%nat then None
  else
    let coalitionPartiesList := coalitionPartiesList parties coalitionParties in
    if (length coalitionPartiesList =? 0)%nat then None
    else
      let levels :=
        for_of statements {| unified := 0; moderate := 0; divided := 0 |}
               (count_level coalitionPartiesList) in
      let total := (unified levels + moderate levels + divided levels)%nat in
      if (total =? 0)%nat then None
      else
        Some {| overview_levels := levels;
                unifiedPercent :=
                  (Number.of_nat (unified levels) / Number.of_nat total
                   * Number.of_Z 100)%num;
                moderatePercent :=
                  (Number.of_nat (moderate levels) / Number.of_nat total
                   * Number.of_Z 100)%num;
                dividedPercent :=
                  (Number.of_nat (divided levels) / Number.of_nat total
                   * Number.of_Z 100)%num |}.

(** A segment of a stance bar: its class, its width in percent and the
    seats it prints. *)
Record Segment : Type := mkSegment {
  seg_class : string;
  seg_width : number;
  seg_seats : Z
}.

(** [${seats > 0 ? `<div ...>` : ''}] *)
Definition segment_if_positive (class : string) (width : number) (seats : Z)
    : list Segment :=
  if 0 <? seats
  then [{| seg_class := class; seg_width := width; seg_seats := seats |}]
  else [].

(** [updateFullBar(statement)], for a bar element that exists: the
    segments of the bar, left to right. *)
Definition updateFullBar (parties : list Party) (statement : Statement) : list Segment :=
  let t := seats_by_stance parties statement in
  let total := totalSeats t in
  let agreePercent := percent (agreeSeats t) total in
  let neutralPercent := percent (neutralSeats t) total in
  let disagreePercent := percent (disagreeSeats t) total in
  segment_if_positive "stance-segment stance-agree" agreePercent (agreeSeats t)
  ++ segment_if_positive "stance-segment stance-neutral" neutralPercent (neutralSeats t)
  ++ segment_if_positive "stance-segment stance-disagree" disagreePercent (disagreeSeats t).

(** The counters and the party lists of [updateCoalitionBar_Statement].
    An entry of a party list prints the name and the seats of a party; it
    is kept as that party. *)
Record StanceGroups : Type := mkStanceGroups {
  group_seats : Tally;
  agreeParties : list Party;
  neutralParties : list Party;
  disagreeParties : list Party
}.

(** The body of its loop over the roster. *)
Definition collect_party (coalitionParties : gset string) (statement : Statement)
    (g : StanceGroups) (party : Party) : StanceGroups :=
  if has coalitionParties party
  then
    let stance := positions statement !! name party in
    let t := group_seats g in
    if strict_eq_num stance 1
    then {| group_seats :=
              {| agreeSeats := agreeSeats t + seats party;
                 neutralSeats := neutralSeats t; disagreeSeats := disagreeSeats t |};
            agreeParties := push (agreeParties g) party;
            neutralParties := neutralParties g;
            disagreeParties := disagreeParties g |}
    else if strict_eq_num stance 0
    then {| group_seats :=
              {| agreeSeats := agreeSeats t;
                 neutralSeats := neutralSeats t + seats party;
                 disagreeSeats := disagreeSeats t |};
            agreeParties := agreeParties g;
            neutralParties := push (neutralParties g) party;
            disagreeParties := disagreeParties g |}
    else if strict_eq_num stance (-1)
    then {| group_seats :=
              {| agreeSeats := agreeSeats t; neutralSeats := neutralSeats t;
                 disagreeSeats := disagreeSeats t + seats party |};
            agreeParties := agreeParties g;
            neutralParties := neutralParties g;
            disagreeParties := push (disagreeParties g) party |}
    else g
  else g.

(** What [updateCoalitionBar_Statement] writes: a message, or the segments
    of the bar, each with the parties of its tooltip (none for the empty
    tooltip). *)
Inductive CoalitionStanceBar : Type :=
  | EmptyCoalition (text : string)
  | StanceBar (segments : list (Segment * list Party)).

(** [${seats > 0 ? `<div ... title="${tooltip}">` : ''}] *)
Definition tooltip_segment_if_positive (class : string) (width : number)
    (seats : Z) (tooltip : list Party) : list (Segment * list Party) :=
  if 0 <? seats
  then [({| seg_class := class; seg_width := width; seg_seats := seats |}, tooltip)]
  else [].

(** [updateCoalitionBar_Statement(statement)], for a bar element that
    exists. *)
Definition updateCoalitionBar_Statement (parties : list Party)
    (coalitionParties : gset string) (statement : Statement) : CoalitionStanceBar :=
  if (size coalitionParties =? 0)%nat
  then EmptyCoalition "Geen coalitie geselecteerd"
  else
    let g :=
      for_of parties
        {| group_seats := {| agreeSeats := 0; neutralSeats := 0; disagreeSeats := 0 |};
           agreeParties := []; neutralParties := []; disagreeParties := [] |}
        (collect_party coalitionParties statement) in
    let t := group_seats g in
    let total := totalSeats t in
    if total =? 0
    then EmptyCoalition "Geen data beschikbaar"
    else
      let agreePercent := percent (agreeSeats t) total in
      let neutralPercent := percent (neutralSeats t) total in
      let disagreePercent := percent (disagreeSeats t) total in
      StanceBar
        (tooltip_segment_if_positive "coalition-stance-segment coalition-agree"
           agreePercent (agreeSeats t) (agreeParties g)
         ++ tooltip_segment_if_positive "coalition-stance-segment coalition-neutral"
              neutralPercent (neutralSeats t) (neutralParties g)
         ++ tooltip_segment_if_positive "coalition-stance-segment coalition-disagree"
              disagreePercent (disagreeSeats t) (disagreeParties g)).

(** ** The suggestions *)

(** What [displayCoalitionSuggestions] shows of one scored coalition: its
    number, the joined party names, the seats, the rate, the rounded
    average in percent, the size, the penalty it prints and the coalition
    that a click applies. *)
Record SuggestionItem : Type := mkSuggestionItem {
  sug_number : nat;
  sug_partyNames : string;
  sug_seats : Z;
  sug_agreementRate : number;
  sug_averagePercent : number;
  sug_coalitionSize : nat;
  sug_penaltyPercent : Z;
  sug_onClick : list Party
}.

(** Its output: the not-found message, or the header (the number of
    suggestions and the required party, if one is selected) and the
    items. *)
Inductive Suggestions : Type :=
  | NoSuggestions (text : string)
  | SuggestionList (top : nat) (required : option string) (items : list SuggestionItem).

(** [displayCoalitionSuggestions(scoredCoalitions)], with the value of the
    drop-down as a parameter. *)
Definition displayCoalitionSuggestions (requiredParty : string)
    (scoredCoalitions : list Scored) : Suggestions :=
  if (length scoredCoalitions =? 0)%nat
  then NoSuggestions "Geen meerderheidscoalities gevonden."
  else
    SuggestionList (length scoredCoalitions)
      (if truthy (Some requiredParty) then Some requiredParty else None)
      (imap (λ index item,
         let coalition := coalition item in
         let score := score item in
         {| sug_number := index + 1;
            sug_partyNames := String.concat " + " (name <$> coalition);
            sug_seats := score_seats score;
            sug_agreementRate := agreementRate score;
            sug_averagePercent :=
              Number.round (averageAgreement score * Number.of_Z 100)%num;
            sug_coalitionSize := coalitionSize score;
            sug_penaltyPercent := (Z.of_nat (coalitionSize score) - 2) * 5;
            sug_onClick := coalition |})
         scoredCoalitions).

(** [populateRequiredPartyDropdown()]: the values of the options. *)
Definition populateRequiredPartyDropdown (parties : list Party) : list string :=
  for_of parties [""] (λ options party, push options (name party)).

(** The emoji that the views of a statement show for the listed parties,
    if they show one. *)
Definition emoji_of (listed : list Party) (statement : Statement) : option string :=
  let t := seats_by_stance listed statement in
  if totalSeats t =? 0 then None
  else
    let agreementRate := percent (maxSeats t) (totalSeats t) in
    Some (if at_least agreementRate 80 then "🤝"
          else if at_least agreementRate 60 then "😐" else "⚡").

(** The number of statements for which the views show the emoji [e]. *)
Definition count_emoji (listed : list Party) (e : string) (sts : list Statement) : nat :=
  length (filter (λ st, emoji_of listed st = Some e) sts).

(** The sum of the seats that the segments of a bar print. *)
Definition total_seats (bar : list Segment) : Z :=
  foldr Z.add 0 (seg_seats <$> bar).

(** The listed parties whose stance on the statement is the number [v]. *)
Definition with_stance (v : Z) (statement : Statement) (listed : list Party) : list Party :=
  List.filter (λ p, strict_eq_num (positions statement !! name p) v) listed.

(** ** The party cards *)

(** What [createPartyCard(party)] stores in the card: [dataset.partyName]
    and [dataset.seats]. *)
Record PartyCard : Type := mkPartyCard { dataset_partyName : string; dataset_seats : Z }.

Definition createPartyCard (party : Party) : PartyCard :=
  {| dataset_partyName := name party; dataset_seats := seats party |}.

(** [renderParties()]: the cards of the emptied container
    [availableParties], in the order of the [appendChild] calls. *)
Definition renderParties (parties : list Party)
    (coalitionParties : gset string) : list PartyCard :=
  for_of parties [] (λ availableContainer party,
    if negb (has coalitionParties party)
    then push availableContainer (createPartyCard party)
    else availableContainer).

(** [renderCoalitionParties()]: the cards of the emptied container
    [coalitionParties]. *)
Definition renderCoalitionParties (parties : list Party)
    (coalitionParties : gset string) : list PartyCard :=
  for_of parties [] (λ coalitionContainer party,
    if has coalitionParties party
    then push coalitionContainer (createPartyCard party)
    else coalitionContainer).

(** The seats printed on the cards of a container. *)
Definition card_seats (cards : list PartyCard) : Z :=
  foldr Z.add 0 (dataset_seats <$> cards).

(** ** The loader *)

(** An element of [nosData.landelijke_uitslag.partijen], with the fields
    that [loadData] reads: [partij.short_name], [huidig.zetels] and
    [huidig.stemmen]. *)
Record NosEntry : Type := mkNosEntry { short_name : string; zetels : Z; stemmen : Z }.

(** The object that [loadData] builds for a party: the fields [name] and
    [seats] that the engine reads, and [party], [votes] and [nosName]. *)
Record LoadedParty : Type := mkLoadedParty {
  as_Party :> Party;
  party : string;
  votes : Z;
  nosName : string
}.

Definition PARTY_NAME_MAP : gmap string string :=
  list_to_map
    [("GLPVDA", "GroenLinks-PvdA"); ("CU", "ChristenUnie"); ("FVD", "FvD");
     ("PVDD", "Partij voor de Dieren"); ("LP", "Libertaire Partij");
     ("DELINIE", "De Linie"); ("VREVDIER", "Vrede voor Dieren");
     ("VRIJVER", "Vrij Verbond"); ("PIRATEN", "Piratenpartij");
     ("NLPLAN", "NL PLAN"); ("PVDR", "Partij voor de Rechtsstaat");
     ("ELLECT", "ELLECT"); ("OVERIG", "Overige")].

(** The property names that the object literal [PARTY_NAME_MAP] inherits
    from [Object.prototype]. *)
Definition Object_prototype_keys : list string :=
  ["constructor"; "__defineGetter__"; "__defineSetter__"; "hasOwnProperty";
   "__lookupGetter__"; "__lookupSetter__"; "isPrototypeOf";
   "propertyIsEnumerable"; "toString"; "valueOf"; "__proto__";
   "toLocaleString"].

(** [PARTY_NAME_MAP[nosName] || nosName].  For a name that the map
    inherits, the value is a function or an object and not a string: the
    embedding has no name for the party then, and gives [None]. *)
Definition mappedName_of (nosName : string) : option string :=
  match PARTY_NAME_MAP !! nosName with
  | Some mapped => Some (if truthy (Some mapped) then mapped else nosName)
  | None =>
      if bool_decide (nosName ∈ Object_prototype_keys) then None else Some nosName
  end.

(** Truthiness of a number: zero and [NaN] are falsy. *)
Definition number_truthy (x : number) : bool :=
  match x with
  | Fin q => negb (bool_decide (q = 0%Qc))
  | NaN => false
  | _ => true
  end.

(** [x || y] on numbers. *)
Definition number_or (x y : number) : number := if number_truthy x then x else y.

(** [(a, b) => b.seats - a.seats || b.votes - a.votes] *)
Definition by_seats_then_votes (a b : LoadedParty) : number :=
  number_or (Number.of_Z (seats b) - Number.of_Z (seats a))%num
            (Number.of_Z (votes b) - Number.of_Z (votes a))%num.

(** The callback of [.map(p => ...)]. *)
Definition loaded_party (p : NosEntry) : option LoadedParty :=
  let nosName := short_name p in
  match mappedName_of nosName with
  | Some mappedName =>
      Some {| as_Party := {| name := mappedName; seats := zetels p |};
              party := mappedName;
              votes := stemmen p;
              nosName := nosName |}
  | None => None
  end.

(** The value that [loadData] assigns to [parties], from the array
    [nosData.landelijke_uitslag.partijen]. *)
Definition loadData_parties (partijen : list NosEntry) : option (list LoadedParty) :=
  match mapM loaded_party (List.filter (λ p, 0 <? zetels p) partijen) with
  | Some nosParties => Some (Array_sort by_seats_then_votes nosParties)
  | None => None
  end.

(** [a] stands before [b] in the loaded roster: more seats, or the same
    seats and at least as many votes. *)
Definition ranked_before (a b : LoadedParty) : Prop :=
  seats b < seats a ∨ (seats b = seats a ∧ votes b ≤ votes a).

(** ** Sample data

    The roster and the statement of the specification's example scenarios. *)
Definition pA : Party := mkParty "A" 76.
Definition pB : Party := mkParty "B" 40.
Definition pC : Party := mkParty "C" 34.
Definition roster : list Party := [pA; pB; pC].
Definition statement1 : Statement :=
  mkStatement (list_to_map [("A", JNumber 1); ("B", JNumber 1); ("C", JNumber (-1))]).

(** A fourth party, and a statement on which three parties take the three
    different stances. *)
Definition pD : Party := mkParty "D" 30.
Definition statement2 : Statement :=
  mkStatement (list_to_map [("B", JNumber 1); ("C", JNumber 0); ("D", JNumber (-1))]).

(** A statement on which no party has a recorded stance. *)
Definition statement3 : Statement := mkStatement ∅.

(** A sample of the election result. *)
Definition sample_partijen : list NosEntry :=
  [mkNosEntry "CU" 3 300; mkNosEntry "X" 0 10; mkNosEntry "GLPVDA" 20 2000;
   mkNosEntry "VVD" 22 2100; mkNosEntry "FVD" 3 310].

(** * Properties *)

(** Settles a closed decidable proposition by evaluating its decision. *)
Ltac by_compute := refine (bool_decide_unpack _ _); vm_compute; exact I.

(** ** Loops that push *)

Section Loops.
Context {A B : Type}.

Lemma for_of_cons {S : Type} (x : A) (xs : list A) (init : S) (body : S → A → S) :
  for_of (x :: xs) init body = for_of xs (body init x) body.
Proof. reflexivity. Qed.

(** A loop whose body appends [g x] to the array collects the [g x] in
    the order of the loop. *)
Lemma for_of_append (g : A → list B) (body : list B → A → list B) xs init :
  (∀ acc x, body acc x = acc ++ g x) →
  for_of xs init body = init ++ (xs ≫= g).
Proof.
  intros Hbody. revert init.
  induction xs as [|x xs IH]; intros init.
  - simpl. now rewrite app_nil_r.
  - rewrite for_of_cons, IH, Hbody. simpl. now rewrite <- app_assoc.
Qed.

Lemma for_of_push (f : A → B) xs init :
  for_of xs init (λ acc x, push acc (f x)) = init ++ (f <$> xs).
Proof.
  rewrite (for_of_append (λ x, [f x])) by reflexivity.
  induction xs as [|x xs IH]; [reflexivity|].
  change ((x :: xs) ≫= (λ x, [f x])) with (f x :: (xs ≫= (λ x, [f x]))).
  rewrite fmap_cons. apply app_inv_head in IH. now rewrite IH.
Qed.

Lemma for_of_push_if (f : A → B) (test : A → bool) xs init :
  for_of xs init (λ acc x, if test x then push acc (f x) else acc)
  = init ++ (f <$> List.filter test xs).
Proof.
  rewrite (for_of_append (λ x, if test x then [f x] else [])).
  - f_equal. induction xs as [|x xs IH]; [reflexivity|].
    change ((x :: xs) ≫= (λ x, if test x then [f x] else []))
      with ((if test x then [f x] else []) ++
            (xs ≫= (λ x, if test x then [f x] else []))).
    rewrite IH. simpl. now destruct (test x).
  - intros acc x. destruct (test x); [reflexivity|]. now rewrite app_nil_r.
Qed.
End Loops.

Lemma sum_seats_from (coalition : list Party) (z : Z) :
  fold_left (λ sum p, sum + seats p) coalition z = z + sum_seats coalition.
Proof.
  unfold sum_seats. revert z.
  induction coalition as [|p c IH]; intros z; simpl; [lia|].
  rewrite (IH (z + seats p)), (IH (0 + seats p)). lia.
Qed.

Lemma sum_seats_cons p c : sum_seats (p :: c) = seats p + sum_seats c.
Proof. unfold sum_seats at 1. simpl. now rewrite sum_seats_from. Qed.

(** ** The generator *)

(** The generator as one expression: the not-found exit, then for each
    size the combinations that reach the majority. *)
Lemma generateMajorityCoalitions_unfold parties req :
  generateMajorityCoalitions parties req =
  if truthy req && (length (requiredParties_of parties req) =? 0)%nat
  then []
  else seq 1 (Z.to_nat (maxSize_of parties req)) ≫= (λ size,
         (λ combo, requiredParties_of parties req ++ combo) <$>
         List.filter
           (λ combo, majorityThreshold <=? sum_seats (requiredParties_of parties req ++ combo))
           (getCombinations (availableParties_of parties req) size)).
Proof.
  unfold generateMajorityCoalitions.
  fold (requiredParties_of parties req) (availableParties_of parties req).
  fold (maxSize_of parties req).
  destruct (truthy req && _); [reflexivity|].
  rewrite (for_of_append (λ size,
    (λ combo, requiredParties_of parties req ++ combo) <$>
    List.filter
      (λ combo, majorityThreshold <=? sum_seats (requiredParties_of parties req ++ combo))
      (getCombinations (availableParties_of parties req) size))).
  - reflexivity.
  - intros acc size. cbv zeta.
    apply (for_of_push_if (λ combo, requiredParties_of parties req ++ combo)
             (λ combo, majorityThreshold <=?
                         sum_seats (requiredParties_of parties req ++ combo))).
Qed.

(** Membership in the generator's result. *)
Lemma elem_of_generateMajorityCoalitions parties req c :
  c ∈ generateMajorityCoalitions parties req ↔
  (truthy req && (length (requiredParties_of parties req) =? 0)%nat = false) ∧
  ∃ size combo,
    (1 ≤ size ≤ Z.to_nat (maxSize_of parties req))%nat ∧
    combo ∈ getCombinations (availableParties_of parties req) size ∧
    c = requiredParties_of parties req ++ combo ∧
    majorityThreshold ≤ sum_seats c.
Proof.
  rewrite generateMajorityCoalitions_unfold.
  destruct (truthy req && _) eqn:Hexit.
  - split; [intros H; inversion H|intros [? _]; discriminate].
  - rewrite list_elem_of_bind. split.
    + intros (size & Hc & Hsize). split; [reflexivity|].
      apply list_elem_of_fmap in Hc as (combo & -> & Hcombo).
      apply list_elem_of_In, filter_In in Hcombo as [Hcombo Hseats].
      apply list_elem_of_In in Hcombo. apply elem_of_seq in Hsize.
      exists size, combo. repeat split; [lia|lia|done|].
      now apply Z.leb_le.
    + intros (_ & size & combo & Hsize & Hcombo & -> & Hseats).
      exists size. split; [|apply elem_of_seq; lia].
      apply list_elem_of_fmap. exists combo. split; [reflexivity|].
      apply list_elem_of_In, filter_In. split; [now apply list_elem_of_In|].
      now apply Z.leb_le.
Qed.

Lemma truthy_Some s : truthy (Some s) = true ↔ s ≠ "".
Proof.
  simpl. rewrite negb_true_iff. split.
  - intros H ->. discriminate.
  - intros H. apply String.eqb_neq. exact H.
Qed.

Lemma name_is_Some s p : name_is (Some s) p = true ↔ name p = s.
Proof. apply String.eqb_eq. Qed.

(** C1: every coalition returned by [generateMajorityCoalitions] has at
    least 76 seats, and a list of parties with fewer than 76 seats is never
    in the result. *)
Theorem generateMajorityCoalitions_majority parties req :
  (∀ c, c ∈ generateMajorityCoalitions parties req → 76 ≤ sum_seats c) ∧
  (∀ c, sum_seats c < 76 → c ∉ generateMajorityCoalitions parties req).
Proof.
  assert (Hmaj : ∀ c, c ∈ generateMajorityCoalitions parties req → 76 ≤ sum_seats c).
  { intros c Hc.
    apply elem_of_generateMajorityCoalitions in Hc
      as (_ & size & combo & _ & _ & _ & Hseats).
    exact Hseats. }
  split; [exact Hmaj|].
  intros c Hlt Hc. apply Hmaj in Hc. lia.
Qed.

(** C3: with a required party name that no roster party carries the
    generator returns the empty list; with a name that is in the roster,
    every returned coalition contains a roster party of that name. *)
Theorem generateMajorityCoalitions_required parties s :
  s ≠ "" →
  ((∀ p, p ∈ parties → name p ≠ s) →
   generateMajorityCoalitions parties (Some s) = []) ∧
  ((∃ p, p ∈ parties ∧ name p = s) →
   ∀ c, c ∈ generateMajorityCoalitions parties (Some s) →
        ∃ p, p ∈ c ∧ p ∈ parties ∧ name p = s).
Proof.
  intros Hs. apply truthy_Some in Hs. split.
  - intros Hnone. rewrite generateMajorityCoalitions_unfold.
    unfold requiredParties_of. rewrite Hs.
    replace (List.filter (name_is (Some s)) parties) with (@nil Party);
      [reflexivity|].
    symmetry. induction parties as [|p ps IH]; [reflexivity|].
    simpl. destruct (String.eqb (name p) s) eqn:Hp.
    + apply String.eqb_eq in Hp. exfalso. apply (Hnone p); [left|exact Hp].
    + apply IH. intros q Hq. apply Hnone. now right.
  - intros _ c Hc.
    apply elem_of_generateMajorityCoalitions in Hc
      as (Hfound & size & combo & _ & _ & -> & _).
    rewrite Hs in Hfound. simpl in Hfound.
    destruct (requiredParties_of parties (Some s)) as [|p rs] eqn:Hreq;
      [discriminate|].
    exists p.
    assert (Hp : p ∈ requiredParties_of parties (Some s)) by (rewrite Hreq; left).
    unfold requiredParties_of in Hp. rewrite Hs in Hp.
    apply list_elem_of_In, filter_In in Hp as [Hp Hname].
    split; [left|]. split; [now apply list_elem_of_In|].
    now apply name_is_Some.
Qed.

(** C10: without a required party the generator goes through the sizes
    from 1 up over the whole roster, so a party that has at least 76 seats
    is returned as a coalition of its own. *)
Theorem generateMajorityCoalitions_single parties req p :
  truthy req = false →
  generateMajorityCoalitions parties req
    = (seq 1 (Nat.min 5 (length parties)) ≫= (λ size,
         List.filter (λ combo, 76 <=? sum_seats combo)
                     (getCombinations parties size))) ∧
  (p ∈ parties → 76 ≤ seats p → [p] ∈ generateMajorityCoalitions parties req).
Proof.
  intros Hreq. split.
  - rewrite generateMajorityCoalitions_unfold.
    unfold maxSize_of, requiredParties_of, availableParties_of.
    rewrite Hreq. cbn [andb length app].
    replace (Z.to_nat (Z.min (5 - Z.of_nat 0) (Z.of_nat (length parties))))
      with (Nat.min 5 (length parties)) by lia.
    apply list_bind_ext; [|reflexivity].
    intros size. apply list_fmap_id.
  - intros Hp Hseats.
    apply elem_of_generateMajorityCoalitions.
    unfold maxSize_of, requiredParties_of, availableParties_of.
    rewrite Hreq. split; [reflexivity|].
    exists 1%nat, [p]. split; [|split; [|split]].
    + destruct parties as [|q qs]; [inversion Hp|]. simpl length. lia.
    + simpl. apply list_elem_of_fmap. now exists p.
    + reflexivity.
    + rewrite sum_seats_cons. unfold sum_seats. simpl.
      unfold majorityThreshold. lia.
Qed.

(** ** Combinations *)

Section Combinations.
Context {A : Type}.
Implicit Types (arr l c : list A) (k size : nat).

Lemma getCombinations_loop arr k :
  getCombinations arr (S (S k)) =
  seq 0 (length arr + 1 - S (S k)) ≫= combinations_at arr (S k).
Proof.
  cbn [getCombinations].
  rewrite (for_of_append (combinations_at arr (S k))); [reflexivity|].
  intros acc i. unfold combinations_at.
  destruct (arr !! i) as [head|]; [|now rewrite app_nil_r].
  apply (for_of_push (λ tail, head :: tail)).
Qed.

Lemma selections_short l k : (length l < k)%nat → selections l k = [].
Proof.
  revert k. induction l as [|x l IH]; intros [|k] Hlen; simpl in *;
    try lia; [reflexivity|].
  rewrite (IH k), (IH (S k)) by lia. reflexivity.
Qed.

Lemma selections_one l : selections l 1 = (λ item, [item]) <$> l.
Proof.
  induction l as [|x l IH]; [reflexivity|].
  cbn [selections]. rewrite IH. now destruct l.
Qed.

(** For a positive size the loop of [getCombinations] enumerates the
    selections of that size. *)
Lemma getCombinations_selections arr k :
  getCombinations arr (S k) = selections arr (S k).
Proof.
  revert arr. induction k as [|k IHk]; intros arr.
  - now rewrite selections_one.
  - rewrite getCombinations_loop.
    induction arr as [|x l IHl]; [reflexivity|].
    cbn [selections]. cbn [length].
    destruct (decide (length l ≤ k)%nat) as [Hshort|Hlong].
    + replace (S (length l) + 1 - S (S k))%nat with 0%nat by lia.
      rewrite !selections_short by lia. reflexivity.
    + replace (S (length l) + 1 - S (S k))%nat
        with (S (length l + 1 - S (S k))) by lia.
      rewrite <- cons_seq.
      change ((0%nat :: ?r) ≫= ?f) with (f 0%nat ++ (r ≫= f)).
      f_equal.
      * unfold combinations_at. rewrite IHk. reflexivity.
      * rewrite <- IHl, <- fmap_S_seq, list_fmap_bind. reflexivity.
Qed.

Lemma length_selections l k : length (selections l k) = binomial (length l) k.
Proof.
  revert k. induction l as [|x l IH]; intros [|k]; simpl; try reflexivity.
  now rewrite length_app, length_fmap, !IH.
Qed.

(** The selections are the sublists of the given length. *)
Lemma elem_of_selections l k c :
  c ∈ selections l k ↔ c `sublist_of` l ∧ length c = k.
Proof.
  revert k c. induction l as [|x l IH]; intros [|k] c; simpl.
  - rewrite list_elem_of_singleton, sublist_nil_r. split.
    + now intros ->.
    + now intros [-> _].
  - rewrite sublist_nil_r. split; [intros H; inversion H|].
    intros [-> H]. discriminate.
  - rewrite list_elem_of_singleton. split.
    + intros ->. split; [apply sublist_nil_l|reflexivity].
    + intros [_ H]. now destruct c.
  - rewrite elem_of_app, list_elem_of_fmap, sublist_cons_r. split.
    + intros [(c' & -> & Hc')|Hc].
      * apply IH in Hc' as [Hsub Hlen]. split; [right; eauto|simpl; lia].
      * apply IH in Hc as [Hsub Hlen]. split; [now left|exact Hlen].
    + intros [[Hsub|(c' & -> & Hsub)] Hlen].
      * right. apply IH. now split.
      * left. exists c'. split; [reflexivity|].
        apply IH. split; [exact Hsub|]. simpl in Hlen. lia.
Qed.

Lemma NoDup_selections l k : NoDup l → NoDup (selections l k).
Proof.
  intros Hl. revert k. induction Hl as [|x l Hx Hl IH]; intros [|k]; simpl.
  - apply NoDup_singleton.
  - constructor.
  - apply NoDup_singleton.
  - apply NoDup_app. split; [|split].
    + apply (NoDup_fmap_2 _). apply IH.
    + intros c Hc Hc'. apply list_elem_of_fmap in Hc as (c' & -> & _).
      apply elem_of_selections in Hc' as [Hsub _].
      apply Hx. apply (sublist_subseteq _ _ Hsub). left.
    + apply IH.
Qed.

(** Two sublists of a duplicate-free list with the same elements are the
    same list: a selection is determined by its set of elements. *)
Lemma sublist_Permutation_eq l c1 c2 :
  NoDup l → c1 `sublist_of` l → c2 `sublist_of` l → c1 ≡ₚ c2 → c1 = c2.
Proof.
  intros Hl. revert c1 c2.
  induction Hl as [|x l Hx Hl IH]; intros c1 c2 H1 H2 Hperm.
  - apply sublist_nil_r in H1, H2. congruence.
  - apply sublist_cons_r in H1 as [H1|(c1' & -> & H1)];
    apply sublist_cons_r in H2 as [H2|(c2' & -> & H2)].
    + now apply IH.
    + exfalso. apply Hx, (sublist_subseteq _ _ H1).
      rewrite Hperm. left.
    + exfalso. apply Hx, (sublist_subseteq _ _ H2).
      rewrite <- Hperm. left.
    + f_equal. apply IH; [done..|].
      now apply (inj (x ::.)) in Hperm.
Qed.

(** Every duplicate-free list of elements of [l] is a rearrangement of a
    sublist of [l]. *)
Lemma subset_sublist `{!EqDecision A} l s :
  NoDup l → NoDup s → s ⊆ l →
  ∃ c, c `sublist_of` l ∧ c ≡ₚ s.
Proof.
  intros Hl Hs Hsub. exists (filter (.∈ s) l). split.
  - apply sublist_filter.
  - apply NoDup_Permutation; [now apply NoDup_filter|exact Hs|].
    intros x. rewrite list_elem_of_filter. split; [tauto|].
    intros Hx. split; [exact Hx|now apply Hsub].
Qed.
End Combinations.

Lemma binomial_0_r n : binomial n 0 = 1%nat.
Proof. now destruct n. Qed.

Lemma binomial_small n k : (n < k)%nat → binomial n k = 0%nat.
Proof.
  revert k. induction n as [|n IH]; intros [|k] H; simpl; try lia.
  rewrite !IH by lia. reflexivity.
Qed.

Lemma binomial_diag n : binomial n n = 1%nat.
Proof.
  induction n as [|n IH]; [reflexivity|].
  simpl. rewrite IH, binomial_small by lia. reflexivity.
Qed.

(** [binomial] is the usual coefficient: C(n+k, k) * k! * n! = (n+k)!. *)
Lemma binomial_fact n k :
  (binomial (n + k) k * (fact k * fact n) = fact (n + k))%nat.
Proof.
  revert k. induction n as [|n IHn]; intros k.
  - simpl. rewrite binomial_diag. lia.
  - induction k as [|k IHk].
    + rewrite binomial_0_r, Nat.add_0_r. simpl fact at 1. lia.
    + replace (S n + S k)%nat with (S (S n + k)) by lia.
      cbn [binomial].
      specialize (IHn (S k)).
      replace (n + S k)%nat with (S n + k)%nat in IHn by lia.
      change (fact (S (S n + k))) with (S (S n + k) * fact (S n + k))%nat.
      change (fact (S k)) with (S k * fact k)%nat in *.
      change (fact (S n)) with (S n * fact n)%nat in *.
      nia.
Qed.

(** C2: for a duplicate-free array of [n] elements and [1 ≤ k ≤ n],
    [getCombinations arr k] has exactly C(n,k) entries, no entry occurs
    twice, every entry is a [k]-element subset of [arr], and every
    [k]-element subset of [arr] is, up to the order of its elements, exactly
    one entry. *)
Theorem getCombinations_complete {A : Type} `{!EqDecision A} (arr : list A) (k : nat) :
  NoDup arr → (1 ≤ k ≤ length arr)%nat →
  length (getCombinations arr k) = binomial (length arr) k ∧
  NoDup (getCombinations arr k) ∧
  (∀ c, c ∈ getCombinations arr k → length c = k ∧ NoDup c ∧ c ⊆ arr) ∧
  (∀ s, NoDup s → length s = k → s ⊆ arr →
     ∃ c, c ∈ getCombinations arr k ∧ c ≡ₚ s ∧
          ∀ c', c' ∈ getCombinations arr k → c' ≡ₚ s → c' = c).
Proof.
  intros Harr [Hk _]. destruct k as [|k]; [lia|].
  rewrite getCombinations_selections. split; [|split; [|split]].
  - apply length_selections.
  - now apply NoDup_selections.
  - intros c Hc. apply elem_of_selections in Hc as [Hsub Hlen].
    split; [exact Hlen|]. split.
    + now apply (sublist_NoDup c arr).
    + now apply sublist_subseteq.
  - intros s Hs Hlen Hsub.
    destruct (subset_sublist arr s Harr Hs Hsub) as (c & Hc & Hperm).
    exists c. split; [|split; [exact Hperm|]].
    + apply elem_of_selections. split; [exact Hc|].
      now rewrite Hperm.
    + intros c' Hc' Hperm'. apply elem_of_selections in Hc' as [Hc' _].
      apply (sublist_Permutation_eq arr); [done..|].
      now rewrite Hperm, Hperm'.
Qed.

Lemma getCombinations_complete_witness :
  length (getCombinations roster 2) = binomial (length roster) 2.
Proof.
  refine (proj1 (getCombinations_complete roster 2 _ _)).
  - by_compute.
  - simpl. lia.
Defined.

Lemma generateMajorityCoalitions_majority_witness :
  76 ≤ sum_seats [pA; pB] ∧ [pB; pC] ∉ generateMajorityCoalitions roster None.
Proof.
  split.
  - apply (proj1 (generateMajorityCoalitions_majority roster None)).
    by_compute.
  - apply (proj2 (generateMajorityCoalitions_majority roster None)).
    vm_compute. reflexivity.
Defined.

Lemma generateMajorityCoalitions_required_witness :
  generateMajorityCoalitions roster (Some "D") = [] ∧
  ∃ p, p ∈ [pB; pA] ∧ p ∈ roster ∧ name p = "B".
Proof.
  assert (HD : "D" ≠ "") by discriminate.
  assert (HB : "B" ≠ "") by discriminate.
  split.
  - apply (proj1 (generateMajorityCoalitions_required roster "D" HD)).
    apply (proj1 (Forall_forall (λ p, name p ≠ "D") roster)).
    by_compute.
  - apply (proj2 (generateMajorityCoalitions_required roster "B" HB)).
    + exists pB. split; [|reflexivity].
      by_compute.
    + by_compute.
Defined.

Lemma generateMajorityCoalitions_single_witness :
  [pA] ∈ generateMajorityCoalitions roster None.
Proof.
  apply (proj2 (generateMajorityCoalitions_single roster None pA eq_refl)).
  - by_compute.
  - simpl. lia.
Defined.

(** ** Rational arithmetic *)

(** Moves a goal about [Qc] to the rationals [Q], where [lra] applies. *)
Ltac qc_to_q :=
  unfold Qcle, Qclt, Qcdiv, Qcminus, Qcinv, Qcopp, Qcmult, Qcplus, Q2Qc, Qc_of_Z in *;
  cbn [this] in *;
  rewrite ?Qred_correct in *.

Lemma Qc_of_Z_neq_0 (z : Z) : z ≠ 0 → Qc_of_Z z ≠ 0%Qc.
Proof. rewrite <- Z2Qc_inj_0. intros Hz H. now apply Z2Qc_inj in H. Qed.

Lemma Qc_of_Z_pos (z : Z) : 0 < z → (0 < Qc_of_Z z)%Qc.
Proof. rewrite <- Z2Qc_inj_0. apply Z2Qc_inj_lt. Qed.

Lemma Qc_half_neq_0 : Q2Qc (1 # 2) ≠ 0%Qc.
Proof. intros H. apply Q2Qc_eq_iff in H. discriminate. Qed.

Lemma Qc_max_l a b : (a ≤ Qc_max a b)%Qc.
Proof. unfold Qc_max. case_bool_decide; [done|apply Qcle_refl]. Qed.

Lemma Qc_max_r a b : (b ≤ Qc_max a b)%Qc.
Proof.
  unfold Qc_max. case_bool_decide; [apply Qcle_refl|].
  now apply Qclt_le_weak, Qcnot_le_lt.
Qed.

Lemma Qc_max_lub a b c : (a ≤ c)%Qc → (b ≤ c)%Qc → (Qc_max a b ≤ c)%Qc.
Proof. unfold Qc_max. now case_bool_decide. Qed.

Lemma Qc_max_right a b : (a ≤ b)%Qc → Qc_max a b = b.
Proof. unfold Qc_max. now case_bool_decide. Qed.

Lemma Qc_max_left a b : (b ≤ a)%Qc → Qc_max a b = a.
Proof.
  unfold Qc_max. case_bool_decide; [|done]. intros. now apply Qcle_antisym.
Qed.


(** A quotient of integers with a positive denominator, compared by
    cross multiplication. *)
Lemma Qc_frac_le (a b m t : Z) :
  0 < b → 0 < t → a * t ≤ m * b →
  (Qc_of_Z a / Qc_of_Z b ≤ Qc_of_Z m / Qc_of_Z t)%Qc.
Proof.
  intros Hb Ht H. qc_to_q.
  assert (0 < inject_Z b)%Q by (change 0%Q with (inject_Z 0); rewrite <- Zlt_Qlt; lia).
  assert (0 < inject_Z t)%Q by (change 0%Q with (inject_Z 0); rewrite <- Zlt_Qlt; lia).
  apply Qle_shift_div_l; [done|].
  unfold Qdiv. rewrite <- Qmult_assoc, (Qmult_comm (/ _)), Qmult_assoc.
  apply Qle_shift_div_r; [done|].
  rewrite <- !inject_Z_mult, <- Zle_Qle. lia.
Qed.

Lemma Qc_frac_eq (a b : Z) (q : Q) :
  (inject_Z a / inject_Z b == q)%Q → (Qc_of_Z a / Qc_of_Z b)%Qc = Q2Qc q.
Proof. intros H. apply Qc_is_canon. qc_to_q. exact H. Qed.

(** ** The scorer: the tally *)

Lemma strict_eq_num_iff (v : option JsValue) (k : Z) :
  strict_eq_num v k = true ↔ v = Some (JNumber k).
Proof.
  destruct v as [[z| |]|]; simpl; try (split; [discriminate|congruence]).
  rewrite Z.eqb_eq. split; congruence.
Qed.

Lemma bucketSeats_cons v p c st :
  bucketSeats v (p :: c) st =
  (if strict_eq_num (positions st !! name p) v then seats p else 0)
  + bucketSeats v c st.
Proof.
  unfold bucketSeats. rewrite filter_cons.
  destruct (strict_eq_num (positions st !! name p) v) eqn:Hv.
  - apply strict_eq_num_iff in Hv. now rewrite decide_True.
  - rewrite decide_False; [simpl; lia|].
    intros H. apply strict_eq_num_iff in H. congruence.
Qed.

Lemma count_stance_eq t s :
  count_stance t s =
  {| agreeSeats :=
       agreeSeats t + (if strict_eq_num (stance s) 1 then stance_seats s else 0);
     neutralSeats :=
       neutralSeats t + (if strict_eq_num (stance s) 0 then stance_seats s else 0);
     disagreeSeats :=
       disagreeSeats t + (if strict_eq_num (stance s) (-1) then stance_seats s else 0) |}.
Proof.
  unfold count_stance. destruct t as [a n d]. simpl.
  destruct (stance s) as [[z| |]|]; simpl; try (f_equal; lia).
  destruct (Z.eqb_spec z 1), (Z.eqb_spec z 0), (Z.eqb_spec z (-1));
    try lia; f_equal; lia.
Qed.

Lemma tally_from c st t :
  for_of (stances_of c st) t count_stance =
  {| agreeSeats := agreeSeats t + bucketSeats 1 c st;
     neutralSeats := neutralSeats t + bucketSeats 0 c st;
     disagreeSeats := disagreeSeats t + bucketSeats (-1) c st |}.
Proof.
  revert t. induction c as [|p c IH]; intros t.
  - destruct t. unfold bucketSeats. simpl. f_equal; lia.
  - unfold stances_of. rewrite fmap_cons, for_of_cons.
    fold (stances_of c st). rewrite IH, count_stance_eq, !bucketSeats_cons.
    simpl. f_equal; lia.
Qed.

(** The counters of the loop are the seat sums per stance. *)
Lemma tally_spec c st : tally c st = spec_tally c st.
Proof. unfold tally. rewrite tally_from. reflexivity. Qed.

Lemma bucketSeats_nonneg v c st :
  (∀ p, p ∈ c → 0 ≤ seats p) → 0 ≤ bucketSeats v c st.
Proof.
  induction c as [|p c IH]; intros Hc; [unfold bucketSeats; simpl; lia|].
  rewrite bucketSeats_cons.
  assert (0 ≤ seats p) by (apply Hc; left).
  assert (0 ≤ bucketSeats v c st) by (apply IH; intros q Hq; apply Hc; now right).
  destruct (strict_eq_num _ _); lia.
Qed.

(** ** The scorer: finite values *)

Lemma div_Fin a b : b ≠ 0%Qc → (Fin a / Fin b)%num = Fin (a / b)%Qc.
Proof. intros Hb. unfold Number.div. now rewrite bool_decide_eq_false_2. Qed.

Lemma agreementScore_Fin t :
  totalSeats t ≠ 0 → agreementScore t = Fin (agreement_of_fraction t).
Proof.
  intros Ht. unfold agreementScore, majorityFraction, Number.of_Z, Number.of_Q.
  rewrite div_Fin by now apply Qc_of_Z_neq_0.
  unfold Number.sub. simpl Number.neg. cbn [Number.add].
  rewrite div_Fin by apply Qc_half_neq_0.
  cbn [Number.max]. rewrite Z2Qc_inj_0. reflexivity.
Qed.

Lemma score_statement_Fin c q st :
  score_statement c (Fin q) st = Fin (q + spec_statementAgreement c st)%Qc.
Proof.
  unfold score_statement, spec_statementAgreement. cbv zeta.
  rewrite tally_spec.
  destruct (Z.eqb_spec (totalSeats (spec_tally c st)) 0) as [Hz|Hz].
  - rewrite decide_True by done. now rewrite Qcplus_0_r.
  - rewrite decide_False by done. now rewrite agreementScore_Fin.
Qed.

Lemma totalAgreementScore_from c sts q :
  for_of sts (Fin q) (score_statement c) =
  Fin (q + Qc_sum (spec_statementAgreement c <$> sts))%Qc.
Proof.
  revert q. induction sts as [|st sts IH]; intros q.
  - simpl. now rewrite Qcplus_0_r.
  - rewrite for_of_cons, score_statement_Fin, IH. simpl.
    now rewrite Qcplus_assoc.
Qed.

Lemma totalAgreementScore_Fin c sts :
  totalAgreementScore c sts = Fin (Qc_sum (spec_statementAgreement c <$> sts)).
Proof.
  unfold totalAgreementScore, Number.of_Z.
  rewrite totalAgreementScore_from, Z2Qc_inj_0. now rewrite Qcplus_0_l.
Qed.

Lemma length_neq_0 {A} (l : list A) : l ≠ [] → Qc_of_Z (Z.of_nat (length l)) ≠ 0%Qc.
Proof. intros Hl. apply Qc_of_Z_neq_0. destruct l; [done|simpl; lia]. Qed.

Lemma rawAverageAgreement_Fin c sts :
  sts ≠ [] → rawAverageAgreement c sts = Fin (spec_averageAgreement c sts).
Proof.
  intros Hsts. unfold rawAverageAgreement, Number.of_nat, Number.of_Z.
  rewrite totalAgreementScore_Fin, div_Fin by now apply length_neq_0.
  reflexivity.
Qed.

(** With no statement at all the average is [0 / 0]. *)
Lemma rawAverageAgreement_nil c : rawAverageAgreement c [] = NaN.
Proof. reflexivity. Qed.

Lemma agreementRate_nil c :
  agreementRate (calculateCoalitionAgreement c []) = NaN.
Proof. reflexivity. Qed.

Lemma sizePenalty_Fin c : sizePenalty c = Fin (spec_sizePenalty c).
Proof.
  unfold sizePenalty, spec_sizePenalty, Number.of_Z, Number.of_Q.
  cbn [Number.mul Number.max]. now rewrite Z2Qc_inj_0.
Qed.

Lemma rawAdjustedAgreement_Fin c sts :
  sts ≠ [] → rawAdjustedAgreement c sts = Fin (spec_adjustedAgreement c sts).
Proof.
  intros Hsts. unfold rawAdjustedAgreement, spec_adjustedAgreement.
  rewrite rawAverageAgreement_Fin, sizePenalty_Fin by done.
  unfold Number.of_Z. cbn. now rewrite Z2Qc_inj_0.
Qed.

Lemma round_decimal_Fin q :
  (Number.round (Fin q * Number.of_Z 100 * Number.of_Z 10) / Number.of_Z 10)%num
  = Fin (round_1_decimal (q * Qc_of_Z 100)).
Proof.
  unfold Number.of_Z. cbn [Number.mul Number.round]. unfold Number.of_Z.
  rewrite div_Fin by now apply Qc_of_Z_neq_0. reflexivity.
Qed.

Lemma calculateCoalitionAgreement_unfold c sts :
  calculateCoalitionAgreement c sts =
  {| agreementRate :=
       (Number.round (rawAdjustedAgreement c sts * Number.of_Z 100 * Number.of_Z 10)
        / Number.of_Z 10)%num;
     averageAgreement :=
       (Number.round (rawAverageAgreement c sts * Number.of_Z 1000)
        / Number.of_Z 1000)%num;
     adjustedAgreement :=
       (Number.round (rawAdjustedAgreement c sts * Number.of_Z 1000)
        / Number.of_Z 1000)%num;
     coalitionSize := length c;
     totalStatements := length sts;
     score_seats := sum_seats c |}.
Proof. reflexivity. Qed.

Lemma agreementRate_Fin c sts :
  sts ≠ [] →
  agreementRate (calculateCoalitionAgreement c sts) = Fin (spec_agreementRate c sts).
Proof.
  intros Hsts. rewrite calculateCoalitionAgreement_unfold. cbn [agreementRate].
  rewrite rawAdjustedAgreement_Fin by done. apply round_decimal_Fin.
Qed.

(** A number is the rational [q] when its value compares equal to [q]. *)
Lemma number_eq_of_Q (n : number) (q : Q) :
  match n with Fin x => Qeq_bool x q | _ => false end = true →
  n = Number.of_Q q.
Proof.
  destruct n as [x| | |]; try discriminate.
  intros H. apply Qeq_bool_iff in H. unfold Number.of_Q. f_equal.
  apply Qc_is_canon. simpl. now rewrite Qred_correct.
Qed.

Lemma agreementRate_AB :
  agreementRate (calculateCoalitionAgreement [pA; pB] [statement1])
  = Number.of_Q 100.
Proof. apply number_eq_of_Q. vm_compute. reflexivity. Qed.

Lemma agreementRate_ABC :
  agreementRate (calculateCoalitionAgreement [pA; pB; pC] [statement1])
  = Number.of_Q (497 # 10).
Proof. apply number_eq_of_Q. vm_compute. reflexivity. Qed.

(** C4, as stated, fails on its second example: for the coalition {A,B,C}
    the rate is 49.7, which is not near 33.2. *)
Lemma agreementRate_ABC_not_33 :
  ¬ ∃ q, agreementRate (calculateCoalitionAgreement [pA; pB; pC] [statement1]) = Fin q
         ∧ (Q2Qc 33 ≤ q ≤ Q2Qc 34)%Qc.
Proof.
  rewrite agreementRate_ABC. intros (q & Hq & _ & Hle).
  injection Hq as <-. revert Hle. by_compute.
Qed.

(** The integer nearest to a rational, a tie going up, is at most one
    half away from it. *)
Lemma Qfloor_half_bounds (x : Qc) :
  (x - Q2Qc (1 # 2) < Qc_of_Z (Qfloor (x + Q2Qc (1 # 2))%Qc))%Qc ∧
  (Qc_of_Z (Qfloor (x + Q2Qc (1 # 2))%Qc) ≤ x + Q2Qc (1 # 2))%Qc.
Proof.
  pose proof (Qfloor_le (x + Q2Qc (1 # 2))%Qc) as Hle.
  pose proof (Qlt_floor (x + Q2Qc (1 # 2))%Qc) as Hlt.
  rewrite inject_Z_plus in Hlt.
  revert Hle Hlt. generalize (Qfloor (x + Q2Qc (1 # 2))%Qc). intros k Hle Hlt.
  split; qc_to_q; unfold inject_Z in *; lra.
Qed.

(** The rate is a number of tenths, [k / 10] for the integer [k] that
    [Math.round] returns, and [k] is at most one half away from 1000 times
    the adjusted agreement of the formula. *)
Lemma agreementRate_tenths c sts :
  sts ≠ [] →
  ∃ k : Z,
    agreementRate (calculateCoalitionAgreement c sts)
      = (Number.of_Z k / Number.of_Z 10)%num ∧
    (Qc_of_Z 1000 * spec_adjustedAgreement c sts - Q2Qc (1 # 2) < Qc_of_Z k)%Qc ∧
    (Qc_of_Z k ≤ Qc_of_Z 1000 * spec_adjustedAgreement c sts + Q2Qc (1 # 2))%Qc.
Proof.
  intros Hsts. rewrite agreementRate_Fin by exact Hsts.
  unfold spec_agreementRate, round_1_decimal.
  set (adj := spec_adjustedAgreement c sts).
  exists (Qfloor (adj * Qc_of_Z 100 * Qc_of_Z 10 + Q2Qc (1 # 2))%Qc).
  split.
  - unfold Number.of_Z. rewrite div_Fin by (apply Qc_of_Z_neq_0; lia). reflexivity.
  - assert (Heq : (adj * Qc_of_Z 100 * Qc_of_Z 10 = Qc_of_Z 1000 * adj)%Qc).
    { rewrite <- Qcmult_assoc, <- Z2Qc_inj_mul. apply Qcmult_comm. }
    rewrite Heq. apply Qfloor_half_bounds.
Qed.

(** C4 (amended): for a non-empty statement set and a coalition without
    negative seats, the rate returned by [calculateCoalitionAgreement] is
    the value of the continuous-weighted formula of the specification, in
    percent and rounded to one decimal: it is [k / 10] for an integer [k]
    that is at most 0.51 away from 1000 times the adjusted agreement (one
    half for the rounding to the nearest tenth, and a margin for the
    rounding of the arithmetic).  On the example roster and statement the
    coalition {A,B} scores 100, and the coalition {A,B,C}, with 116 seats
    agreeing and 34 disagreeing out of 150, scores 49.7. *)
Theorem calculateCoalitionAgreement_formula :
  (∀ c sts, sts ≠ [] → (∀ p, p ∈ c → 0 ≤ seats p) →
     ∃ k : Z,
       agreementRate (calculateCoalitionAgreement c sts)
         = (Number.of_Z k / Number.of_Z 10)%num ∧
       (Qc_of_Z 1000 * spec_adjustedAgreement c sts - Q2Qc (51 # 100) ≤ Qc_of_Z k)%Qc ∧
       (Qc_of_Z k ≤ Qc_of_Z 1000 * spec_adjustedAgreement c sts + Q2Qc (51 # 100))%Qc) ∧
  agreementRate (calculateCoalitionAgreement [pA; pB] [statement1]) = Number.of_Q 100 ∧
  tally [pA; pB; pC] statement1
    = {| agreeSeats := 116; neutralSeats := 0; disagreeSeats := 34 |} ∧
  agreementRate (calculateCoalitionAgreement [pA; pB; pC] [statement1])
    = Number.of_Q (497 # 10).
Proof.
  split; [|split; [exact agreementRate_AB|split; [reflexivity|exact agreementRate_ABC]]].
  intros c sts Hsts _.
  destruct (agreementRate_tenths c sts Hsts) as (k & Hk & Hlo & Hhi).
  exists k. split; [exact Hk|].
  revert Hlo Hhi.
  generalize (Qc_of_Z 1000 * spec_adjustedAgreement c sts)%Qc, (Qc_of_Z k).
  intros y z Hlo Hhi. split; qc_to_q; lra.
Qed.

Lemma calculateCoalitionAgreement_formula_witness :
  ∃ k : Z,
    agreementRate (calculateCoalitionAgreement [pA; pC] [statement1])
      = (Number.of_Z k / Number.of_Z 10)%num ∧
    (Qc_of_Z 1000 * spec_adjustedAgreement [pA; pC] [statement1] - Q2Qc (51 # 100)
     ≤ Qc_of_Z k)%Qc ∧
    (Qc_of_Z k
     ≤ Qc_of_Z 1000 * spec_adjustedAgreement [pA; pC] [statement1] + Q2Qc (51 # 100))%Qc.
Proof.
  apply (proj1 calculateCoalitionAgreement_formula); [discriminate|].
  apply (proj1 (Forall_forall (λ p, 0 ≤ seats p) [pA; pC])). by_compute.
Defined.

(** C5 (the code at the failing input): with an empty statement set the
    average is [0 / 0], and the rate that is returned is [NaN]. *)
Theorem calculateCoalitionAgreement_no_statements :
  agreementRate (calculateCoalitionAgreement [pA; pB] []) = NaN ∧
  ∀ c, agreementRate (calculateCoalitionAgreement c []) = NaN.
Proof. split; [reflexivity|]. exact agreementRate_nil. Qed.

(** ** The scorer: parties without a stance, statements without a tally *)

Lemma bucketSeats_app v c1 c2 st :
  bucketSeats v (c1 ++ c2) st = bucketSeats v c1 st + bucketSeats v c2 st.
Proof.
  induction c1 as [|p c1 IH]; [unfold bucketSeats at 2; simpl; lia|].
  rewrite <- app_comm_cons, !bucketSeats_cons, IH. lia.
Qed.

Lemma Qc_sum_app l1 l2 : Qc_sum (l1 ++ l2) = (Qc_sum l1 + Qc_sum l2)%Qc.
Proof.
  induction l1 as [|x l1 IH]; simpl; [now rewrite Qcplus_0_l|].
  now rewrite IH, Qcplus_assoc.
Qed.

(** C6: a coalition party whose stance on a statement is missing or is not
    one of the numbers 1, 0, -1 changes none of the three counters; a
    statement whose [totalSeats] is 0 adds nothing to
    [totalAgreementScore], while [totalStatements], the divisor of the
    average, stays the number of all statements. *)
Theorem stance_and_statement_exclusion :
  (∀ t s, (∀ v, v ∈ [1; 0; -1] → stance s ≠ Some (JNumber v)) →
     count_stance t s = t) ∧
  (∀ c1 p c2 st,
     (∀ v, v ∈ [1; 0; -1] → positions st !! name p ≠ Some (JNumber v)) →
     tally (c1 ++ p :: c2) st = tally (c1 ++ c2) st) ∧
  (∀ c sts1 st sts2,
     totalSeats (tally c st) = 0 →
     totalAgreementScore c (sts1 ++ st :: sts2) = totalAgreementScore c (sts1 ++ sts2) ∧
     totalStatements (calculateCoalitionAgreement c (sts1 ++ st :: sts2))
       = S (length (sts1 ++ sts2)) ∧
     rawAverageAgreement c (sts1 ++ st :: sts2)
       = (totalAgreementScore c (sts1 ++ sts2)
          / Number.of_nat (S (length (sts1 ++ sts2))))%num).
Proof.
  assert (Hnone : ∀ o : option JsValue,
    (∀ v, v ∈ [1; 0; -1] → o ≠ Some (JNumber v)) →
    strict_eq_num o 1 = false ∧ strict_eq_num o 0 = false
    ∧ strict_eq_num o (-1) = false).
  { intros o Ho.
    repeat split; apply not_true_is_false; rewrite strict_eq_num_iff;
      apply Ho; set_solver. }
  split; [|split].
  - intros t s Hs. destruct (Hnone _ Hs) as (H1 & H0 & Hm).
    unfold count_stance. now rewrite H1, H0, Hm.
  - intros c1 p c2 st Hp. destruct (Hnone _ Hp) as (H1 & H0 & Hm).
    rewrite !tally_spec. unfold spec_tally.
    rewrite !bucketSeats_app, !bucketSeats_cons, H1, H0, Hm.
    f_equal; lia.
  - intros c sts1 st sts2 Hzero.
    assert (Hst : spec_statementAgreement c st = 0%Qc).
    { unfold spec_statementAgreement. cbv zeta. rewrite <- tally_spec.
      now rewrite decide_True. }
    assert (Htotal : totalAgreementScore c (sts1 ++ st :: sts2)
                     = totalAgreementScore c (sts1 ++ sts2)).
    { rewrite !totalAgreementScore_Fin, !fmap_app, fmap_cons, !Qc_sum_app.
      simpl. now rewrite Hst, Qcplus_0_l. }
    split; [exact Htotal|]. split.
    + simpl. rewrite !length_app. simpl. lia.
    + unfold rawAverageAgreement. rewrite Htotal. do 2 f_equal.
      rewrite !length_app. simpl. lia.
Qed.

(** ** The majority fraction *)

Lemma Q2Qc_frac (a : Z) (b : positive) :
  Q2Qc (a # b) = (Qc_of_Z a / Qc_of_Z (Z.pos b))%Qc.
Proof. symmetry. apply Qc_frac_eq. symmetry. apply Qmake_Qdiv. Qed.

Lemma Qc_div_1 (a : Z) : (Qc_of_Z a / Qc_of_Z 1)%Qc = Qc_of_Z a.
Proof. rewrite Z2Qc_inj_1. apply Qcdiv_right_id. Qed.

Lemma spec_tally_nonneg c st :
  (∀ p, p ∈ c → 0 ≤ seats p) →
  0 ≤ agreeSeats (spec_tally c st) ∧ 0 ≤ neutralSeats (spec_tally c st)
  ∧ 0 ≤ disagreeSeats (spec_tally c st).
Proof. intros Hc. repeat split; now apply bucketSeats_nonneg. Qed.

Lemma clamp_below_half (f : Qc) :
  (f ≤ Q2Qc (1 # 2))%Qc → Qc_max 0 ((f - Q2Qc (1 # 2)) / Q2Qc (1 # 2))%Qc = 0%Qc.
Proof.
  intros Hf. apply Qc_max_left. qc_to_q.
  unfold Qdiv. cbn [Qinv Qnum Qden]. lra.
Qed.

(** C8 (amended): for a coalition with non-negative seats and a statement
    with [totalSeats > 0], the majority fraction is a finite value between
    1/3 and 1; it is at least 1/2 when one of the three counters is zero.
    The agreement score is the clamped rescaling of that fraction, and it
    is 0, the clamp taking effect, whenever the fraction is below 1/2. *)
Theorem majorityFraction_bounds c st :
  (∀ p, p ∈ c → 0 ≤ seats p) → 0 < totalSeats (tally c st) →
  ∃ f, majorityFraction (tally c st) = Fin f ∧
       (Q2Qc (1 # 3) ≤ f ≤ 1)%Qc ∧
       (agreeSeats (tally c st) = 0 ∨ neutralSeats (tally c st) = 0
        ∨ disagreeSeats (tally c st) = 0 → (Q2Qc (1 # 2) ≤ f)%Qc) ∧
       agreementScore (tally c st)
         = Fin (Qc_max 0 ((f - Q2Qc (1 # 2)) / Q2Qc (1 # 2))%Qc) ∧
       (f < Q2Qc (1 # 2) → agreementScore (tally c st) = Fin 0)%Qc.
Proof.
  intros Hc Htotal. rewrite tally_spec in *.
  destruct (spec_tally_nonneg c st Hc) as (Ha & Hn & Hd).
  set (t := spec_tally c st) in *.
  exists (Qc_of_Z (maxSeats t) / Qc_of_Z (totalSeats t))%Qc.
  unfold totalSeats, maxSeats in *.
  split; [|split; [|split; [|split]]].
  - unfold majorityFraction, Number.of_Z. apply div_Fin, Qc_of_Z_neq_0.
    unfold totalSeats. lia.
  - split.
    + rewrite Q2Qc_frac. apply Qc_frac_le; lia.
    + rewrite <- Z2Qc_inj_1, <- (Qc_div_1 1). apply Qc_frac_le; lia.
  - intros Hzero. rewrite Q2Qc_frac. apply Qc_frac_le; lia.
  - apply agreementScore_Fin. unfold totalSeats. lia.
  - intros Hf. rewrite agreementScore_Fin by (unfold totalSeats; lia).
    f_equal. apply clamp_below_half. now apply Qclt_le_weak.
Qed.

(** ** The size penalty *)

Lemma Qc_of_Z_le (a b : Z) : a ≤ b → (Qc_of_Z a ≤ Qc_of_Z b)%Qc.
Proof. apply Z2Qc_inj_le. Qed.

Lemma Qc_penalty_rate_pos : (0 < Q2Qc (5 # 100))%Qc.
Proof. by_compute. Qed.

(** The penalty counts the parties beyond two. *)
Lemma spec_sizePenalty_eq c :
  spec_sizePenalty c
  = (Qc_of_Z (Z.max (Z.of_nat (length c)) 2 - 2) * Q2Qc (5 # 100))%Qc.
Proof.
  unfold spec_sizePenalty.
  destruct (Z.le_gt_cases (Z.of_nat (length c)) 2) as [Hle|Hgt].
  - rewrite Z.max_r by lia. rewrite Z.sub_diag, Z2Qc_inj_0, Qcmult_0_l.
    apply Qc_max_left.
    rewrite <- (Qcmult_0_l (Q2Qc (5 # 100))).
    apply Qcmult_le_compat_r; [|apply Qclt_le_weak, Qc_penalty_rate_pos].
    rewrite <- Z2Qc_inj_0. apply Qc_of_Z_le. lia.
  - rewrite Z.max_l by lia. apply Qc_max_right.
    apply Qcmult_nonneg_nonneg; [|apply Qclt_le_weak, Qc_penalty_rate_pos].
    rewrite <- Z2Qc_inj_0. apply Qc_of_Z_le. lia.
Qed.



Lemma Qfloor_add_Z (x : Q) (z : Z) : Qfloor (x + inject_Z z) = Qfloor x + z.
Proof.
  destruct x as [n d]. unfold Qfloor, Qplus, inject_Z. cbn [Qnum Qden].
  rewrite Pos.mul_1_r, Z.mul_1_r. apply Z.div_add. lia.
Qed.

Lemma round_1_decimal_mono x y :
  (x ≤ y)%Qc → (round_1_decimal x ≤ round_1_decimal y)%Qc.
Proof.
  intros Hxy. unfold round_1_decimal.
  apply Qcmult_le_compat_r; [|apply Qclt_le_weak, Qcinv_pos; by_compute].
  apply Qc_of_Z_le, Qfloor_resp_le. 
  change (x * Qc_of_Z 10 + Q2Qc (1 # 2) ≤ y * Qc_of_Z 10 + Q2Qc (1 # 2))%Qc.
  apply Qcplus_le_mono_r. apply Qcmult_le_compat_r; [done|by_compute].
Qed.

Lemma round_1_decimal_add_Z x (k : Z) :
  round_1_decimal (x + Qc_of_Z k) = (round_1_decimal x + Qc_of_Z k)%Qc.
Proof.
  unfold round_1_decimal.
  assert (Hfloor :
    Qfloor ((x + Qc_of_Z k) * Qc_of_Z 10 + Q2Qc (1 # 2))%Qc
    = Qfloor (x * Qc_of_Z 10 + Q2Qc (1 # 2))%Qc + k * 10).
  { rewrite <- Qfloor_add_Z. apply Qfloor_comp. qc_to_q.
    rewrite inject_Z_mult. ring. }
  rewrite Hfloor, Z2Qc_inj_add, Z2Qc_inj_mul.
  field. now apply Qc_of_Z_neq_0.
Qed.

Lemma Qc_penalty_100 : (Q2Qc (5 # 100) * Qc_of_Z 100)%Qc = Qc_of_Z 5.
Proof. apply Qc_is_canon. reflexivity. Qed.




(** ** Ranking *)

Section Sort.
Context {A : Type} (comparefn : A → A → number).

Lemma sort_insert_Permutation a l : sort_insert comparefn a l ≡ₚ a :: l.
Proof.
  induction l as [|b l IH]; [reflexivity|]. simpl.
  destruct (Number.gt0 _); [|reflexivity].
  rewrite IH. apply perm_swap.
Qed.

Lemma Array_sort_Permutation l : Array_sort comparefn l ≡ₚ l.
Proof.
  induction l as [|a l IH]; [reflexivity|]. simpl.
  now rewrite sort_insert_Permutation, IH.
Qed.

(** Insertion keeps a class of elements in place when the element passes
    no member of the class. *)
Lemma sort_insert_filter (P : A → Prop) `{!∀ x, Decision (P x)} a l :
  (P a → ∀ b, P b → Number.gt0 (comparefn a b) = false) →
  filter P (sort_insert comparefn a l) = filter P (a :: l).
Proof.
  intros Hties. induction l as [|b l IH]; [reflexivity|]. simpl.
  destruct (Number.gt0 (comparefn a b)) eqn:Hgt; [|reflexivity].
  rewrite (filter_cons _ b), IH, !(filter_cons _ a), (filter_cons _ b).
  destruct (decide (P a)) as [Pa|]; [|reflexivity].
  destruct (decide (P b)) as [Pb|]; [|reflexivity].
  rewrite (Hties Pa b Pb) in Hgt. discriminate.
Qed.

Lemma Array_sort_filter (P : A → Prop) `{!∀ x, Decision (P x)} l :
  (∀ a b, P a → P b → Number.gt0 (comparefn a b) = false) →
  filter P (Array_sort comparefn l) = filter P l.
Proof.
  intros Hties. induction l as [|a l IH]; [reflexivity|]. simpl.
  rewrite sort_insert_filter by eauto.
  now rewrite !(filter_cons _ a), IH.
Qed.
End Sort.

Lemma sub_self_not_positive (x : number) : Number.gt0 (x - x)%num = false.
Proof.
  destruct x as [q| | |]; try reflexivity.
  unfold Number.sub. cbn [Number.neg Number.add]. rewrite Qcplus_opp_r.
  reflexivity.
Qed.

Lemma by_agreement_tie a b : rate a = rate b → Number.gt0 (by_agreement a b) = false.
Proof.
  unfold by_agreement, rate. intros ->. apply sub_self_not_positive.
Qed.

Lemma by_agreement_Fin a b qa qb :
  rate a = Fin qa → rate b = Fin qb →
  Number.gt0 (by_agreement a b) = bool_decide (qa < qb)%Qc.
Proof.
  unfold by_agreement, rate. intros -> ->.
  unfold Number.sub. cbn [Number.neg Number.add]. unfold Number.gt0, Number.sign.
  case_bool_decide as Hpos.
  - symmetry. apply bool_decide_eq_true.
    exact (proj2 (Qclt_minus_iff _ _) Hpos).
  - assert (¬ (qa < qb)%Qc)
      by (intros H; apply Hpos; exact (proj1 (Qclt_minus_iff _ _) H)).
    rewrite (bool_decide_eq_false_2 (qa < qb)%Qc) by done.
    now case_bool_decide.
Qed.

(** Sorting finite rates puts them in non-increasing order. *)
Lemma sort_insert_sorted a l :
  Forall (λ x, Number.is_finite (rate x)) (a :: l) →
  StronglySorted not_below l →
  StronglySorted not_below (sort_insert by_agreement a l).
Proof.
  intros Hfin Hsorted. induction Hsorted as [|b l Hl IH Hb].
  - simpl. repeat constructor.
  - apply Forall_cons in Hfin as [[qa Ha] Hfin].
    pose proof Hfin as Hfin'.
    apply Forall_cons in Hfin' as [[qb Hqb] Hfinl].
    simpl. rewrite (by_agreement_Fin a b qa qb Ha Hqb).
    case_bool_decide as Hlt.
    + constructor.
      * apply IH. apply Forall_cons. split; [now exists qa|exact Hfinl].
      * rewrite sort_insert_Permutation. constructor; [|exact Hb].
        unfold not_below. rewrite Ha, Hqb. cbn. apply bool_decide_eq_true.
        now apply Qclt_le_weak.
    + assert (Hba : not_below a b).
      { unfold not_below. rewrite Ha, Hqb. cbn. apply bool_decide_eq_true.
        now apply Qcnot_lt_le. }
      constructor; [now constructor|].
      constructor; [exact Hba|].
      apply Forall_forall. intros x Hx.
      rewrite Forall_forall in Hb, Hfinl.
      specialize (Hb x Hx). destruct (Hfinl x Hx) as [qx Hqx].
      unfold not_below in *. rewrite Ha, Hqb, Hqx in *. cbn in *.
      apply bool_decide_eq_true. apply bool_decide_eq_true in Hb, Hba.
      now apply Qcle_trans with qb.
Qed.

Lemma Array_sort_sorted l :
  Forall (λ x, Number.is_finite (rate x)) l →
  StronglySorted not_below (Array_sort by_agreement l).
Proof.
  induction l as [|a l IH]; intros Hfin; [constructor|].
  simpl. apply sort_insert_sorted.
  - apply Forall_cons in Hfin as [Ha Hl]. apply Forall_cons. split; [exact Ha|].
    now rewrite Array_sort_Permutation.
  - apply IH. now apply Forall_cons in Hfin as [_ Hl].
Qed.

Lemma not_below_not_above a b : not_below a b → not_above a b.
Proof.
  unfold not_below, not_above.
  destruct (rate a) as [qa| | |], (rate b) as [qb| | |]; cbn; try done.
  intros H. apply bool_decide_eq_true in H. apply bool_decide_eq_false.
  now apply Qcle_not_lt.
Qed.

Lemma StronglySorted_impl {A} (R1 R2 : A → A → Prop) l :
  (∀ a b, R1 a b → R2 a b) → StronglySorted R1 l → StronglySorted R2 l.
Proof.
  intros HR. induction 1 as [|a l Hl IH Ha]; constructor; [exact IH|].
  eapply Forall_impl; [exact Ha|]. apply HR.
Qed.

Lemma scored_candidates_rate parties sts req x :
  x ∈ scored_candidates parties sts req →
  rate x = agreementRate (calculateCoalitionAgreement (coalition x) sts).
Proof.
  unfold scored_candidates. intros Hx.
  apply list_elem_of_fmap in Hx as (c & -> & _). reflexivity.
Qed.

Lemma scored_candidates_finite parties sts req :
  sts ≠ [] →
  Forall (λ x, Number.is_finite (rate x)) (scored_candidates parties sts req).
Proof.
  intros Hsts. apply Forall_forall. intros x Hx.
  rewrite (scored_candidates_rate _ _ _ _ Hx), agreementRate_Fin by done.
  now eexists.
Qed.

Lemma findBestCoalitions_unfold parties sts req :
  findBestCoalitions parties sts req
  = take 5 (Array_sort by_agreement (scored_candidates parties sts req)).
Proof. reflexivity. Qed.

(** C9: [findBestCoalitions] hands on min(5, n) scored coalitions, where n
    is the number of coalitions that the generator returns, and so at most
    5; they are the first elements of a rearrangement of the scored
    candidates in which no element has a greater rate than an earlier one
    (with at least one statement: every rate is at most the earlier ones);
    and the coalitions of any one rate come in the order in which the
    generator listed them. *)
Theorem findBestCoalitions_ranked parties statements requiredParty :
  (length (findBestCoalitions parties statements requiredParty)
   = Nat.min 5 (length (generateMajorityCoalitions parties (Some requiredParty))) ∧
   length (findBestCoalitions parties statements requiredParty) ≤ 5)%nat ∧
  (∃ rest,
     findBestCoalitions parties statements requiredParty ++ rest
       ≡ₚ scored_candidates parties statements requiredParty ∧
     StronglySorted not_above
       (findBestCoalitions parties statements requiredParty ++ rest)) ∧
  (statements ≠ [] →
   StronglySorted not_below (findBestCoalitions parties statements requiredParty)) ∧
  (∀ r,
     filter (λ x, rate x = r) (findBestCoalitions parties statements requiredParty)
     `prefix_of`
     filter (λ x, rate x = r) (scored_candidates parties statements requiredParty)).
Proof.
  rewrite findBestCoalitions_unfold.
  set (scored := scored_candidates parties statements requiredParty).
  set (sorted := Array_sort by_agreement scored).
  assert (Hsorted : statements ≠ [] → StronglySorted not_below sorted).
  { intros Hsts. apply Array_sort_sorted. now apply scored_candidates_finite. }
  split; [|split; [|split]].
  - rewrite length_take. unfold sorted.
    rewrite (Permutation_length (Array_sort_Permutation _ _)).
    unfold scored, scored_candidates. rewrite length_fmap. lia.
  - exists (drop 5 sorted). rewrite take_drop. split.
    + apply Array_sort_Permutation.
    + destruct statements as [|st sts].
      * assert (Hnan : Forall (λ x, rate x = NaN) sorted).
        { unfold sorted. rewrite Array_sort_Permutation.
          apply Forall_forall. intros x Hx.
          rewrite (scored_candidates_rate _ _ _ _ Hx).
          apply agreementRate_nil. }
        clearbody sorted. clear Hsorted scored.
        induction Hnan as [|x l Hx Hl IH]; constructor; [exact IH|].
        apply Forall_forall. intros y _. unfold not_above. now rewrite Hx.
      * apply (StronglySorted_impl not_below); [apply not_below_not_above|].
        now apply Hsorted.
  - intros Hsts. apply (StronglySorted_app_1_l _ _ (drop 5 sorted)).
    rewrite take_drop. now apply Hsorted.
  - intros r. unfold sorted at 1.
    rewrite <- (Array_sort_filter by_agreement (λ x, rate x = r) scored).
    + fold sorted. rewrite <- (take_drop 5 sorted) at 2.
      rewrite filter_app. now apply prefix_app_r.
    + intros a b Ha Hb. apply by_agreement_tie. congruence.
Qed.

(** ** Bounds of the rate *)

Lemma agreement_of_fraction_bounds t :
  0 ≤ agreeSeats t → 0 ≤ neutralSeats t → 0 ≤ disagreeSeats t → totalSeats t ≠ 0 →
  (0 ≤ agreement_of_fraction t ≤ 1)%Qc.
Proof.
  intros Ha Hn Hd Ht. unfold agreement_of_fraction. split; [apply Qc_max_l|].
  apply Qc_max_lub; [by_compute|].
  assert (Hf : (Qc_of_Z (maxSeats t) / Qc_of_Z (totalSeats t) ≤ 1)%Qc).
  { rewrite <- Z2Qc_inj_1, <- (Qc_div_1 1).
    unfold totalSeats, maxSeats in *. apply Qc_frac_le; lia. }
  revert Hf. generalize (Qc_of_Z (maxSeats t) / Qc_of_Z (totalSeats t))%Qc.
  intros f Hf. qc_to_q. unfold Qdiv. cbn [Qinv Qnum Qden]. lra.
Qed.

Lemma spec_statementAgreement_bounds c st :
  (∀ p, p ∈ c → 0 ≤ seats p) → (0 ≤ spec_statementAgreement c st ≤ 1)%Qc.
Proof.
  intros Hc. unfold spec_statementAgreement. cbv zeta.
  case_decide; [split; by_compute|].
  destruct (spec_tally_nonneg c st Hc) as (Ha & Hn & Hd).
  now apply agreement_of_fraction_bounds.
Qed.

Lemma Qc_sum_bounds (l : list Qc) :
  Forall (λ x, 0 ≤ x ≤ 1)%Qc l →
  (0 ≤ Qc_sum l ≤ Qc_of_Z (Z.of_nat (length l)))%Qc.
Proof.
  induction 1 as [|x l [Hx0 Hx1] Hl [IH0 IH1]]; simpl.
  - split; by_compute.
  - split; [now apply Qcplus_nonneg_nonneg|].
    rewrite Nat2Z.inj_succ, <- Z.add_1_l, Z2Qc_inj_add, Z2Qc_inj_1.
    now apply Qcplus_le_compat.
Qed.

Lemma Qc_div_bounds (s n : Qc) : (0 < n)%Qc → (0 ≤ s ≤ n)%Qc → (0 ≤ s / n ≤ 1)%Qc.
Proof.
  intros Hn [Hs0 Hsn]. pose proof (Qcinv_pos n Hn) as Hinv.
  unfold Qcdiv. split.
  - apply Qcmult_nonneg_nonneg; [exact Hs0|now apply Qclt_le_weak].
  - rewrite <- (Qcmult_inv_r n) by (intros ->; now apply (irreflexivity Qclt 0%Qc)).
    apply Qcmult_le_compat_r; [exact Hsn|now apply Qclt_le_weak].
Qed.

Lemma spec_averageAgreement_bounds c sts :
  (∀ p, p ∈ c → 0 ≤ seats p) → sts ≠ [] →
  (0 ≤ spec_averageAgreement c sts ≤ 1)%Qc.
Proof.
  intros Hc Hsts. unfold spec_averageAgreement.
  apply Qc_div_bounds.
  - apply Qc_of_Z_pos. destruct sts; [done|simpl; lia].
  - rewrite <- (length_fmap (spec_statementAgreement c)).
    apply Qc_sum_bounds, Forall_fmap, Forall_forall.
    intros st _. now apply spec_statementAgreement_bounds.
Qed.

Lemma spec_sizePenalty_nonneg c : (0 ≤ spec_sizePenalty c)%Qc.
Proof. apply Qc_max_l. Qed.

Lemma round_1_decimal_0 : round_1_decimal 0 = 0%Qc.
Proof. apply Qc_is_canon. reflexivity. Qed.

Lemma round_1_decimal_100 : round_1_decimal (Qc_of_Z 100) = Qc_of_Z 100.
Proof. apply Qc_is_canon. reflexivity. Qed.

(** X1: With at least one statement and no negative seat count, the
    agreementRate that calculateCoalitionAgreement returns is a finite
    number between 0 and 100. *)
Lemma agreementRate_bounded c sts :
  (∀ p, p ∈ c → 0 ≤ seats p) → sts ≠ [] →
  ∃ q, agreementRate (calculateCoalitionAgreement c sts) = Fin q
       ∧ (0 ≤ q ≤ Qc_of_Z 100)%Qc.
Proof.
  intros Hc Hsts. exists (spec_agreementRate c sts).
  split; [now apply agreementRate_Fin|].
  destruct (spec_averageAgreement_bounds c sts Hc Hsts) as [Havg0 Havg1].
  pose proof (spec_sizePenalty_nonneg c) as Hpen.
  assert (Hadj : (0 ≤ spec_adjustedAgreement c sts ≤ 1)%Qc).
  { unfold spec_adjustedAgreement. split; [apply Qc_max_l|].
    apply Qc_max_lub; [by_compute|].
    apply Qcle_trans with (spec_averageAgreement c sts); [|exact Havg1].
    revert Hpen. generalize (spec_sizePenalty c), (spec_averageAgreement c sts).
    intros pen avg Hpen. qc_to_q. lra. }
  destruct Hadj as [Hadj0 Hadj1]. unfold spec_agreementRate. split.
  - apply Qcle_trans with (round_1_decimal 0);
      [rewrite round_1_decimal_0; apply Qcle_refl|].
    apply round_1_decimal_mono.
    apply Qcmult_nonneg_nonneg; [exact Hadj0|by_compute].
  - apply Qcle_trans with (round_1_decimal (Qc_of_Z 100));
      [|rewrite round_1_decimal_100; apply Qcle_refl].
    apply round_1_decimal_mono.
    apply Qcle_trans with (1 * Qc_of_Z 100)%Qc;
      [|rewrite Qcmult_1_l; apply Qcle_refl].
    apply Qcmult_le_compat_r; [exact Hadj1|by_compute].
Qed.

Lemma agreementRate_bounded_witness :
  ∃ q, agreementRate (calculateCoalitionAgreement roster [statement1; statement2]) = Fin q
       ∧ (0 ≤ q ≤ Qc_of_Z 100)%Qc.
Proof.
  apply agreementRate_bounded; [|discriminate].
  apply (proj1 (Forall_forall (λ p, 0 ≤ seats p) roster)). by_compute.
Defined.

(** X2: With at least one statement, a coalition whose seats with a stance
    of 1, 0 or -1 total 0 on every statement (so that every statement is
    skipped, as when none of its parties has a recorded stance) gets the
    agreementRate 0. *)
Lemma agreementRate_no_stance c sts :
  sts ≠ [] → (∀ st, st ∈ sts → totalSeats (tally c st) = 0) →
  agreementRate (calculateCoalitionAgreement c sts) = Fin 0.
Proof.
  intros Hsts Hzero. rewrite agreementRate_Fin by done. f_equal.
  assert (Hsum : Qc_sum (spec_statementAgreement c <$> sts) = 0%Qc).
  { clear Hsts. induction sts as [|st sts IH]; [reflexivity|].
    rewrite fmap_cons. simpl. rewrite IH by (intros; apply Hzero; now right).
    unfold spec_statementAgreement. cbv zeta. rewrite <- tally_spec.
    rewrite decide_True by (apply Hzero; left). apply Qcplus_0_l. }
  unfold spec_agreementRate, spec_adjustedAgreement, spec_averageAgreement.
  rewrite Hsum. unfold Qcdiv. rewrite Qcmult_0_l.
  rewrite Qc_max_left.
  - rewrite Qcmult_0_l. apply round_1_decimal_0.
  - pose proof (spec_sizePenalty_nonneg c) as Hpen. revert Hpen.
    generalize (spec_sizePenalty c). intros pen Hpen. qc_to_q. lra.
Qed.

Lemma agreementRate_no_stance_witness :
  agreementRate (calculateCoalitionAgreement roster [statement3]) = Fin 0.
Proof.
  apply agreementRate_no_stance; [discriminate|].
  intros st Hst. apply list_elem_of_singleton in Hst as ->. reflexivity.
Defined.

(** ** The claims on the sample data *)

Example getCombinations_3_2 :
  getCombinations [1; 2; 3]%nat 2 = [[1; 2]; [1; 3]; [2; 3]]%nat.
Proof. reflexivity. Qed.

(** The roster of the specification: A alone is a majority. *)
Example generateMajorityCoalitions_roster :
  generateMajorityCoalitions roster None
  = [[pA]; [pA; pB]; [pA; pC]; [pA; pB; pC]].
Proof. reflexivity. Qed.

Example generateMajorityCoalitions_roster_B :
  generateMajorityCoalitions roster (Some "B") = [[pB; pA]; [pB; pA; pC]].
Proof. reflexivity. Qed.

Lemma stance_and_statement_exclusion_witness :
  count_stance {| agreeSeats := 1; neutralSeats := 2; disagreeSeats := 3 |}
               {| stance_party := "D"; stance := Some (JString "1"); stance_seats := 30 |}
    = {| agreeSeats := 1; neutralSeats := 2; disagreeSeats := 3 |} ∧
  tally ([pA] ++ pD :: [pB]) statement1 = tally ([pA] ++ [pB]) statement1 ∧
  totalAgreementScore [pA; pB] ([statement1] ++ statement3 :: [])
    = totalAgreementScore [pA; pB] ([statement1] ++ []).
Proof.
  destruct stance_and_statement_exclusion as (Hstep & Hparty & Hstatement).
  split; [|split].
  - apply Hstep. intros v _. discriminate.
  - apply Hparty. intros v _ H. vm_compute in H. discriminate H.
  - apply Hstatement. reflexivity.
Defined.



(** C8, as stated, fails when the three stances all occur: for the
    coalition {B,C,D} with 40, 34 and 30 seats on a statement they split
    three ways, the majority fraction is 40/104 = 5/13, which is below 1/2;
    the rescaled value is negative and the clamp turns it into 0. *)
Lemma majorityFraction_below_half :
  0 < totalSeats (tally [pB; pC; pD] statement2) ∧
  majorityFraction (tally [pB; pC; pD] statement2) = Number.of_Q (5 # 13) ∧
  Number.ltb (majorityFraction (tally [pB; pC; pD] statement2))
             (Number.of_Q (1 # 2)) = true ∧
  ((majorityFraction (tally [pB; pC; pD] statement2) - Number.of_Q (1 # 2))
   / Number.of_Q (1 # 2))%num = Number.of_Q (-3 # 13) ∧
  agreementScore (tally [pB; pC; pD] statement2) = Number.of_Q 0.
Proof.
  repeat split; try (apply number_eq_of_Q; vm_compute; reflexivity).
Qed.

Lemma majorityFraction_bounds_witness :
  ∃ f, majorityFraction (tally roster statement1) = Fin f ∧
       (Q2Qc (1 # 3) ≤ f ≤ 1)%Qc.
Proof.
  assert (Hseats : ∀ p, p ∈ roster → 0 ≤ seats p).
  { apply (proj1 (Forall_forall (λ p, 0 ≤ seats p) roster)). by_compute. }
  assert (Htotal : 0 < totalSeats (tally roster statement1)) by reflexivity.
  destruct (majorityFraction_bounds roster statement1 Hseats Htotal)
    as (f & Hf & Hbounds & _).
  exists f. split; [exact Hf|exact Hbounds].
Defined.

Lemma findBestCoalitions_ranked_witness :
  StronglySorted not_below (findBestCoalitions roster [statement1] "").
Proof.
  apply (proj1 (proj2 (proj2 (findBestCoalitions_ranked roster [statement1] "")))).
  discriminate.
Defined.

(** The ranking of the sample roster: the two coalitions at 100 keep the
    generator's order. *)
Example findBestCoalitions_roster :
  coalition <$> findBestCoalitions roster [statement1] ""
  = [[pA]; [pA; pB]; [pA; pB; pC]; [pA; pC]].
Proof. vm_compute. reflexivity. Qed.

(** ** More on the generator *)

(** Membership in the result, with the combinations spelled out as the
    sublists of the available parties. *)
Lemma generateMajorityCoalitions_elem parties req c :
  c ∈ generateMajorityCoalitions parties req ↔
  (truthy req = true → requiredParties_of parties req ≠ []) ∧
  ∃ combo,
    combo `sublist_of` availableParties_of parties req ∧
    (1 ≤ length combo)%nat ∧
    (length (requiredParties_of parties req) + length combo ≤ 5)%nat ∧
    c = requiredParties_of parties req ++ combo ∧
    76 ≤ sum_seats c.
Proof.
  rewrite elem_of_generateMajorityCoalitions. unfold maxSize_of.
  set (required := requiredParties_of parties req).
  set (available := availableParties_of parties req).
  assert (Hexit : truthy req && (length required =? 0)%nat = false
                  ↔ (truthy req = true → required ≠ [])).
  { destruct (truthy req), required as [|r rs]; simpl; split; try done.
    intros H. now specialize (H eq_refl). }
  rewrite Hexit. apply and_iff_compat_l. split.
  - intros (size & combo & Hsize & Hcombo & -> & Hseats).
    destruct size as [|k]; [lia|].
    rewrite getCombinations_selections in Hcombo.
    apply elem_of_selections in Hcombo as [Hsub Hlen].
    exists combo. repeat split; [exact Hsub|lia|lia|exact Hseats].
  - intros (combo & Hsub & Hlen1 & Hlen5 & -> & Hseats).
    exists (length combo), combo.
    pose proof (sublist_length _ _ Hsub) as Hle.
    split; [lia|]. split; [|split; [reflexivity|exact Hseats]].
    destruct (length combo) as [|k] eqn:Hk; [lia|].
    rewrite getCombinations_selections. apply elem_of_selections. now split.
Qed.

Lemma requiredParties_of_falsy parties req :
  truthy req = false → requiredParties_of parties req = [].
Proof. unfold requiredParties_of. now intros ->. Qed.

Lemma availableParties_of_falsy parties req :
  truthy req = false → availableParties_of parties req = parties.
Proof. unfold availableParties_of. now intros ->. Qed.


Lemma requiredParties_of_elem parties req p :
  p ∈ requiredParties_of parties req ↔
  truthy req = true ∧ p ∈ parties ∧ name_is req p = true.
Proof.
  unfold requiredParties_of. destruct (truthy req).
  - rewrite list_elem_of_In, filter_In, <- list_elem_of_In. tauto.
  - split; [intros H; inversion H|intros [? _]; discriminate].
Qed.

Lemma availableParties_of_elem parties req p :
  p ∈ availableParties_of parties req ↔
  p ∈ parties ∧ (truthy req = true → name_is req p = false).
Proof.
  unfold availableParties_of. destruct (truthy req).
  - rewrite list_elem_of_In, filter_In, <- list_elem_of_In, negb_true_iff. tauto.
  - split; [intros H; split; [exact H|discriminate]|tauto].
Qed.

(** X3: Every coalition that generateMajorityCoalitions returns has between
    1 and 5 parties; when a required party name is given (a non-empty
    string) it has at least 2, so a required party is never returned on its
    own, even when it holds a majority alone. *)
Theorem generateMajorityCoalitions_size parties req c :
  c ∈ generateMajorityCoalitions parties req →
  (1 ≤ length c ≤ 5)%nat ∧ (truthy req = true → (2 ≤ length c)%nat).
Proof.
  intros Hc. apply generateMajorityCoalitions_elem in Hc
    as (Hfound & combo & _ & Hlen1 & Hlen5 & -> & _).
  rewrite length_app. split; [lia|].
  intros Hreq. specialize (Hfound Hreq).
  destruct (requiredParties_of parties req); [done|simpl; lia].
Qed.

Lemma generateMajorityCoalitions_size_witness :
  (1 ≤ length [pA; pB] ≤ 5)%nat ∧ (truthy (Some "A") = true → (2 ≤ length [pA; pB])%nat).
Proof. apply (generateMajorityCoalitions_size roster (Some "A")). by_compute. Defined.

(** X4: Without a required party (null or the empty string)
    generateMajorityCoalitions returns exactly the selections of 1 to 5
    roster parties, in roster order, whose seats sum to at least 76: none of
    them is missing and nothing else is returned. *)
Theorem generateMajorityCoalitions_complete parties req c :
  truthy req = false →
  (c ∈ generateMajorityCoalitions parties req ↔
   c `sublist_of` parties ∧ (1 ≤ length c ≤ 5)%nat ∧ 76 ≤ sum_seats c).
Proof.
  intros Hreq. rewrite generateMajorityCoalitions_elem.
  rewrite requiredParties_of_falsy, availableParties_of_falsy by done.
  rewrite Hreq. simpl. split.
  - intros (_ & combo & Hsub & Hlen1 & Hlen5 & -> & Hseats). now repeat split.
  - intros (Hsub & [Hlen1 Hlen5] & Hseats). split; [discriminate|].
    exists c. now repeat split.
Qed.

Lemma generateMajorityCoalitions_complete_witness :
  [pA; pC] ∈ generateMajorityCoalitions roster None.
Proof.
  apply (proj2 (generateMajorityCoalitions_complete roster None [pA; pC] eq_refl)).
  split; [|split; [simpl; lia|by_compute]].
  apply sublist_skip, sublist_cons, sublist_skip, sublist_nil.
Defined.

(** X5: When exactly one roster party p has the required name,
    generateMajorityCoalitions returns exactly the lists p :: combo where
    combo is a selection of 1 to 4 of the other parties (in roster order)
    with seats(p) + seats(combo) >= 76. *)
Theorem generateMajorityCoalitions_with_required parties s p c :
  s ≠ "" → requiredParties_of parties (Some s) = [p] →
  (c ∈ generateMajorityCoalitions parties (Some s) ↔
   ∃ combo, c = p :: combo ∧
     combo `sublist_of` availableParties_of parties (Some s) ∧
     (1 ≤ length combo ≤ 4)%nat ∧ 76 ≤ seats p + sum_seats combo).
Proof.
  intros Hs Hp. apply truthy_Some in Hs.
  rewrite generateMajorityCoalitions_elem, Hp. split.
  - intros (_ & combo & Hsub & Hlen1 & Hlen5 & -> & Hseats).
    exists combo. simpl in *. rewrite sum_seats_cons in Hseats.
    repeat split; try done; lia.
  - intros (combo & -> & Hsub & [Hlen1 Hlen4] & Hseats).
    split; [done|]. exists combo. simpl. rewrite sum_seats_cons.
    repeat split; try done; lia.
Qed.

Lemma generateMajorityCoalitions_with_required_witness :
  [pB; pA] ∈ generateMajorityCoalitions roster (Some "B").
Proof.
  assert (HB : "B" ≠ "") by discriminate.
  apply (proj2 (generateMajorityCoalitions_with_required roster "B" pB [pB; pA] HB eq_refl)).
  exists [pA]. split; [reflexivity|]. split; [|split; [simpl; lia|by_compute]].
  apply (sublist_skip pA [] [pC]), sublist_nil_l.
Defined.

Lemma sum_seats_nonneg c : (∀ p, p ∈ c → 0 ≤ seats p) → 0 ≤ sum_seats c.
Proof.
  induction c as [|p c IH]; intros Hc; [unfold sum_seats; simpl; lia|].
  rewrite sum_seats_cons.
  assert (0 ≤ seats p) by (apply Hc; left).
  assert (0 ≤ sum_seats c) by (apply IH; intros q Hq; apply Hc; now right).
  lia.
Qed.

Lemma sum_seats_app c1 c2 : sum_seats (c1 ++ c2) = sum_seats c1 + sum_seats c2.
Proof.
  induction c1 as [|p c1 IH]; [unfold sum_seats at 2; simpl; lia|].
  rewrite <- app_comm_cons, !sum_seats_cons, IH. lia.
Qed.

Lemma sum_seats_Permutation c1 c2 : c1 ≡ₚ c2 → sum_seats c1 = sum_seats c2.
Proof.
  induction 1 as [|p c1 c2 _ IH|p q c|c1 c2 c3 _ IH1 _ IH2].
  - reflexivity.
  - rewrite !sum_seats_cons. lia.
  - rewrite !sum_seats_cons. lia.
  - congruence.
Qed.

Lemma sum_seats_sublist c1 c2 :
  (∀ p, p ∈ c2 → 0 ≤ seats p) → c1 `sublist_of` c2 → sum_seats c1 ≤ sum_seats c2.
Proof.
  intros Hc2 Hsub. induction Hsub as [|p c1 c2 _ IH|p c1 c2 _ IH].
  - lia.
  - rewrite !sum_seats_cons.
    assert (sum_seats c1 ≤ sum_seats c2) by (apply IH; intros q Hq; apply Hc2; now right).
    lia.
  - rewrite sum_seats_cons.
    assert (0 ≤ seats p) by (apply Hc2; left).
    assert (sum_seats c1 ≤ sum_seats c2) by (apply IH; intros q Hq; apply Hc2; now right).
    lia.
Qed.


Lemma required_available_Permutation parties req :
  requiredParties_of parties req ++ availableParties_of parties req ≡ₚ parties.
Proof.
  unfold requiredParties_of, availableParties_of.
  destruct (truthy req); [|reflexivity].
  induction parties as [|p ps IH]; [reflexivity|]. simpl.
  destruct (name_is req p); simpl.
  - now rewrite IH.
  - rewrite <- Permutation_middle. now rewrite IH.
Qed.

(** X6: If no party has negative seats and the whole roster holds fewer than
    76 seats, generateMajorityCoalitions returns the empty array, whatever
    the required party. *)
Theorem generateMajorityCoalitions_unreachable parties req :
  (∀ p, p ∈ parties → 0 ≤ seats p) → sum_seats parties < 76 →
  generateMajorityCoalitions parties req = [].
Proof.
  intros Hseats Htotal.
  destruct (generateMajorityCoalitions parties req) as [|c cs] eqn:Hgen; [reflexivity|].
  exfalso.
  assert (Hc : c ∈ generateMajorityCoalitions parties req) by (rewrite Hgen; left).
  apply generateMajorityCoalitions_elem in Hc
    as (_ & combo & Hsub & _ & _ & -> & Hmaj).
  rewrite sum_seats_app in Hmaj.
  rewrite <- (sum_seats_Permutation _ _ (required_available_Permutation parties req)),
    sum_seats_app in Htotal.
  assert (sum_seats combo ≤ sum_seats (availableParties_of parties req)).
  { apply sum_seats_sublist; [|exact Hsub].
    intros p Hp. apply Hseats. now apply availableParties_of_elem in Hp as [Hp _]. }
  lia.
Qed.

Lemma generateMajorityCoalitions_unreachable_witness :
  generateMajorityCoalitions [pB; pC] None = [].
Proof.
  apply generateMajorityCoalitions_unreachable.
  - apply (proj1 (Forall_forall (λ p, 0 ≤ seats p) [pB; pC])). by_compute.
  - by_compute.
Defined.

(** ** The selection and its seats *)

Lemma has_true sel p : has sel p = true ↔ name p ∈ sel.
Proof. unfold has. apply bool_decide_eq_true. Qed.

Lemma elem_of_coalitionPartiesList parties sel p :
  p ∈ coalitionPartiesList parties sel ↔ p ∈ parties ∧ name p ∈ sel.
Proof.
  unfold coalitionPartiesList.
  now rewrite list_elem_of_In, filter_In, <- list_elem_of_In, has_true.
Qed.

Lemma coalitionPartiesList_sublist parties sel :
  coalitionPartiesList parties sel `sublist_of` parties.
Proof.
  unfold coalitionPartiesList.
  induction parties as [|p ps IH]; [reflexivity|]. simpl.
  destruct (has sel p); [now apply sublist_skip|now apply sublist_cons].
Qed.

(** The seats of the selection are the seats of the selected roster
    parties. *)
Lemma calculateCoalitionSeats_list parties sel :
  calculateCoalitionSeats parties sel = sum_seats (coalitionPartiesList parties sel).
Proof.
  unfold calculateCoalitionSeats, coalitionPartiesList.
  assert (H : ∀ z, for_of parties z (λ total party,
                if has sel party then total + seats party else total)
              = z + sum_seats (List.filter (has sel) parties)).
  { induction parties as [|p ps IH]; intros z.
    - unfold sum_seats. simpl. lia.
    - rewrite for_of_cons, IH. simpl.
      destruct (has sel p); [rewrite sum_seats_cons|]; lia. }
  rewrite H. lia.
Qed.

Lemma elem_of_applyCoalition c sel n :
  n ∈ applyCoalition c sel ↔ ∃ p, p ∈ c ∧ name p = n.
Proof.
  unfold applyCoalition.
  assert (H : ∀ s : gset string,
    n ∈ for_of c s (λ s party, {[name party]} ∪ s)
    ↔ n ∈ s ∨ ∃ p, p ∈ c ∧ name p = n).
  { induction c as [|q c IH]; intros s.
    - simpl. split; [now left|]. intros [H|(p & Hp & _)]; [done|inversion Hp].
    - rewrite for_of_cons, IH, elem_of_union, elem_of_singleton. split.
      + intros [[->|H]|(p & Hp & Hn)].
        * right. exists q. split; [left|reflexivity].
        * now left.
        * right. exists p. split; [now right|exact Hn].
      + intros [H|(p & Hp & Hn)]; [left; now right|].
        apply elem_of_cons in Hp as [->|Hp]; [left; left; done|].
        right. now exists p. }
  rewrite H. split; [intros [H0|H0]; [now apply elem_of_empty in H0|exact H0]|now right].
Qed.

(** In a roster with distinct names, the selected roster parties are the
    parties of the list whose names were selected. *)
Lemma coalitionPartiesList_names parties c sel :
  NoDup (name <$> parties) → NoDup c → c ⊆ parties →
  (∀ n, n ∈ sel ↔ ∃ p, p ∈ c ∧ name p = n) →
  coalitionPartiesList parties sel ≡ₚ c.
Proof.
  intros Hnames Hc Hsub Hsel.
  apply NoDup_Permutation; [|exact Hc|].
  - apply (sublist_NoDup _ parties); [|apply coalitionPartiesList_sublist].
    now apply NoDup_fmap_1 in Hnames.
  - intros p. rewrite elem_of_coalitionPartiesList, Hsel. split.
    + intros (Hp & q & Hq & Hname).
      assert (q = p) as <-; [|exact Hq].
      apply list_elem_of_lookup in Hp as [i Hi].
      assert (Hq' : q ∈ parties) by now apply Hsub.
      apply list_elem_of_lookup in Hq' as [j Hj].
      assert (i = j) as ->; [|congruence].
      apply (NoDup_lookup (name <$> parties) i j (name p)); [exact Hnames|..];
        rewrite list_lookup_fmap; [now rewrite Hi|rewrite Hj; simpl; congruence].
    + intros Hp. split; [now apply Hsub|]. now exists p.
Qed.

Lemma generated_subset_NoDup parties req c :
  NoDup parties → c ∈ generateMajorityCoalitions parties req →
  NoDup c ∧ c ⊆ parties.
Proof.
  intros Hparties Hc. apply generateMajorityCoalitions_elem in Hc
    as (_ & combo & Hsub & _ & _ & -> & _).
  pose proof (required_available_Permutation parties req) as Hperm.
  assert (Hsub' : requiredParties_of parties req ++ combo
                  `sublist_of` requiredParties_of parties req
                               ++ availableParties_of parties req)
    by now apply sublist_app.
  split.
  - eapply sublist_NoDup; [|exact Hsub']. now rewrite Hperm.
  - intros p Hp. apply (sublist_subseteq _ _ Hsub') in Hp. now rewrite <- Hperm.
Qed.

(** X7: In a roster with distinct names, applying a generated coalition
    replaces the selection by exactly the names of its parties (whatever was
    selected before); calculateCoalitionSeats then returns the seat sum of
    the coalition and the coalition bar shows the majority text. *)
Theorem applyCoalition_selects parties req c sel :
  NoDup (name <$> parties) →
  c ∈ generateMajorityCoalitions parties req →
  (∀ n, n ∈ applyCoalition c sel ↔ ∃ p, p ∈ c ∧ name p = n) ∧
  calculateCoalitionSeats parties (applyCoalition c sel) = sum_seats c ∧
  bar_text (updateCoalitionBar parties (applyCoalition c sel)) = "✓ Meerderheid".
Proof.
  intros Hnames Hc.
  assert (Hseats : calculateCoalitionSeats parties (applyCoalition c sel) = sum_seats c).
  { rewrite calculateCoalitionSeats_list. apply sum_seats_Permutation.
    destruct (generated_subset_NoDup parties req c) as [Hnd Hsub];
      [now apply NoDup_fmap_1 in Hnames|exact Hc|].
    apply coalitionPartiesList_names; try done.
    intros n. apply elem_of_applyCoalition. }
  split; [intros n; apply elem_of_applyCoalition|]. split; [exact Hseats|].
  unfold updateCoalitionBar. cbn [bar_text]. rewrite Hseats.
  apply generateMajorityCoalitions_elem in Hc as (_ & combo & _ & _ & _ & _ & Hmaj).
  now rewrite (proj2 (Z.leb_le _ _) Hmaj).
Qed.

Lemma applyCoalition_selects_witness :
  calculateCoalitionSeats roster (applyCoalition [pA; pC] {["B"]}) = sum_seats [pA; pC].
Proof.
  refine (proj1 (proj2 (applyCoalition_selects roster None [pA; pC] {["B"]} _ _)));
    by_compute.
Defined.

Lemma calculateCoalitionSeats_add parties sel n :
  n ∉ sel →
  calculateCoalitionSeats parties ({[n]} ∪ sel)
  = calculateCoalitionSeats parties sel
    + sum_seats (List.filter (λ p, String.eqb (name p) n) parties).
Proof.
  intros Hn. rewrite !calculateCoalitionSeats_list. unfold coalitionPartiesList.
  induction parties as [|p ps IH]; [reflexivity|]. simpl.
  destruct (String.eqb_spec (name p) n) as [Heq|Hne].
  - assert (has ({[n]} ∪ sel) p = true) as ->
      by (apply has_true, elem_of_union; left; now apply elem_of_singleton).
    assert (has sel p = false) as ->
      by (apply not_true_iff_false; rewrite has_true; congruence).
    rewrite !sum_seats_cons, IH. lia.
  - assert (has ({[n]} ∪ sel) p = has sel p) as ->.
    { unfold has. apply bool_decide_ext.
      rewrite elem_of_union, elem_of_singleton. split; [|now right].
      intros [Heq|Hin]; [congruence|exact Hin]. }
    destruct (has sel p); [rewrite !sum_seats_cons|]; rewrite IH; lia.
Qed.

Lemma filter_name_unique parties p :
  NoDup (name <$> parties) → p ∈ parties →
  List.filter (λ q, String.eqb (name q) (name p)) parties = [p].
Proof.
  induction parties as [|q ps IH]; intros Hnd Hp; [inversion Hp|].
  rewrite fmap_cons in Hnd. apply NoDup_cons in Hnd as [Hq Hnd]. simpl.
  assert (Hnone : ∀ l, (∀ x, x ∈ l → name x ≠ name p) →
                       List.filter (λ q, String.eqb (name q) (name p)) l = []).
  { induction l as [|x l IHl]; intros Hl; [reflexivity|]. simpl.
    rewrite (proj2 (String.eqb_neq _ _)) by (apply Hl; left).
    apply IHl. intros y Hy. apply Hl. now right. }
  apply elem_of_cons in Hp as [->|Hp].
  - rewrite String.eqb_refl, Hnone; [reflexivity|].
    intros x Hx Heq. apply Hq. rewrite <- Heq. now apply list_elem_of_fmap_2.
  - rewrite (proj2 (String.eqb_neq _ _)); [now apply IH|].
    intros Heq. apply Hq. rewrite Heq. now apply list_elem_of_fmap_2.
Qed.

(** X8: In a roster with distinct names, dropping the card of an unselected
    roster party on the coalition zone raises calculateCoalitionSeats by
    exactly that party seats; dropping it back on any other zone restores
    the selection, and dropping an unselected party on another zone changes
    nothing. *)
Theorem handleDrop_seats parties sel p zone :
  NoDup (name <$> parties) → p ∈ parties → name p ∉ sel →
  zone ≠ "coalitionParties" →
  calculateCoalitionSeats parties (handleDrop (name p) "coalitionParties" sel)
    = calculateCoalitionSeats parties sel + seats p ∧
  handleDrop (name p) zone (handleDrop (name p) "coalitionParties" sel) = sel ∧
  handleDrop (name p) zone sel = sel.
Proof.
  intros Hnames Hp Hsel Hzone.
  assert (Hz : String.eqb zone "coalitionParties" = false) by now apply String.eqb_neq.
  unfold handleDrop. rewrite Hz. simpl. split; [|split].
  - rewrite calculateCoalitionSeats_add, filter_name_unique by done.
    rewrite sum_seats_cons. unfold sum_seats. simpl. lia.
  - apply set_eq. intros n.
    rewrite elem_of_difference, elem_of_union, elem_of_singleton. split.
    + intros [[->|Hn] Hne]; [done|exact Hn].
    + intros Hn. split; [now right|]. intros ->. now apply Hsel.
  - apply set_eq. intros n. rewrite elem_of_difference, elem_of_singleton. split.
    + now intros [Hn _].
    + intros Hn. split; [exact Hn|]. intros ->. now apply Hsel.
Qed.

Lemma handleDrop_seats_witness :
  calculateCoalitionSeats roster (handleDrop (name pB) "coalitionParties" {["A"]})
  = calculateCoalitionSeats roster {["A"]} + seats pB.
Proof.
  refine (proj1 (handleDrop_seats roster {["A"]} pB "availableParties" _ _ _ _));
    by_compute.
Defined.

Lemma coalitionSeats_bounds parties sel :
  (∀ p, p ∈ parties → 0 ≤ seats p) →
  0 ≤ calculateCoalitionSeats parties sel ≤ sum_seats parties.
Proof.
  intros Hseats. rewrite calculateCoalitionSeats_list. split.
  - apply sum_seats_nonneg. intros p Hp.
    apply Hseats. now apply elem_of_coalitionPartiesList in Hp as [Hp _].
  - apply sum_seats_sublist; [exact Hseats|apply coalitionPartiesList_sublist].
Qed.

(** X9: For a roster without negative seats and at most 150 seats in total,
    updateCoalitionBar shows coalition and opposition seats that lie between
    0 and 150 and add up to 150; the bar text is the majority text exactly
    when the coalition has more seats than the opposition, and exactly then
    the bar is green. *)
Theorem updateCoalitionBar_majority parties sel :
  (∀ p, p ∈ parties → 0 ≤ seats p) → sum_seats parties ≤ 150 →
  0 ≤ bar_coalitionSeats (updateCoalitionBar parties sel) ≤ 150 ∧
  0 ≤ bar_oppositionSeats (updateCoalitionBar parties sel) ≤ 150 ∧
  bar_coalitionSeats (updateCoalitionBar parties sel)
    + bar_oppositionSeats (updateCoalitionBar parties sel) = 150 ∧
  (bar_text (updateCoalitionBar parties sel) = "✓ Meerderheid"
   ↔ bar_oppositionSeats (updateCoalitionBar parties sel)
     < bar_coalitionSeats (updateCoalitionBar parties sel)) ∧
  (bar_text (updateCoalitionBar parties sel) = "✓ Meerderheid"
   ↔ bar_background (updateCoalitionBar parties sel)
     = "linear-gradient(90deg, #28a745 0%, #20c997 100%)").
Proof.
  intros Hseats Htotal.
  pose proof (coalitionSeats_bounds parties sel Hseats) as Hb.
  unfold updateCoalitionBar. simpl.
  set (cs := calculateCoalitionSeats parties sel) in *.
  repeat split; try lia;
    destruct (Z.leb_spec 76 cs); try lia; try done.
Qed.

Lemma updateCoalitionBar_majority_witness :
  0 ≤ bar_coalitionSeats (updateCoalitionBar roster {["B"; "C"]}) ≤ 150.
Proof.
  refine (proj1 (updateCoalitionBar_majority roster {["B"; "C"]} _ _)).
  - apply (proj1 (Forall_forall (λ p, 0 ≤ seats p) roster)). by_compute.
  - by_compute.
Defined.

(** ** The views of a statement *)

(** Splits on the tests of the conditionals of the goal. *)
Ltac destruct_ifs :=
  repeat match goal with
         | |- context [if ?b then _ else _] => destruct b
         end.

Lemma for_of_fmap {A B S : Type} (f : A → B) (xs : list A) (init : S) (body : S → B → S) :
  for_of (f <$> xs) init body = for_of xs init (λ acc x, body acc (f x)).
Proof.
  revert init. induction xs as [|x xs IH]; intros init; [reflexivity|].
  rewrite fmap_cons, !for_of_cons. apply IH.
Qed.

(** The views count the seats as the scorer does. *)
Lemma seats_by_stance_tally listed st : seats_by_stance listed st = tally listed st.
Proof. unfold seats_by_stance, tally, stances_of. now rewrite for_of_fmap. Qed.

Lemma coalitionPartiesList_empty parties sel :
  size sel = 0%nat → coalitionPartiesList parties sel = [].
Proof.
  intros Hsize. apply size_empty_inv in Hsize.
  unfold coalitionPartiesList. induction parties as [|p ps IH]; [reflexivity|].
  simpl. rewrite IH.
  assert (has sel p = false) as ->; [|reflexivity].
  apply not_true_iff_false. rewrite has_true. intros H. now apply Hsize in H.
Qed.

Lemma emoji_of_nil st : emoji_of [] st = None.
Proof. reflexivity. Qed.

(** The indicator shows the emoji of the selected roster parties. *)
Lemma indicator_emoji parties sel st :
  ind_textContent <$> updateStatementIndicator parties sel st
  = emoji_of (coalitionPartiesList parties sel) st.
Proof.
  unfold updateStatementIndicator.
  destruct (Nat.eqb_spec (size sel) 0) as [Hsize|_].
  { now rewrite coalitionPartiesList_empty. }
  destruct (coalitionPartiesList parties sel) as [|p l] eqn:Hlisted; [reflexivity|].
  cbn [length Nat.eqb]. unfold emoji_of. cbv zeta.
  destruct_ifs; reflexivity.
Qed.

Lemma consistency_emoji parties sel st :
  cons_emoji <$> updateConsistencyBar parties sel st
  = emoji_of (coalitionPartiesList parties sel) st.
Proof.
  unfold updateConsistencyBar.
  destruct (Nat.eqb_spec (size sel) 0) as [Hsize|_].
  { now rewrite coalitionPartiesList_empty. }
  destruct (coalitionPartiesList parties sel) as [|p l] eqn:Hlisted; [reflexivity|].
  cbn [length Nat.eqb]. unfold emoji_of. cbv zeta.
  destruct_ifs; reflexivity.
Qed.

Lemma emoji_of_None listed st :
  emoji_of listed st = None ↔ totalSeats (tally listed st) = 0.
Proof.
  unfold emoji_of. cbv zeta. rewrite seats_by_stance_tally.
  destruct (Z.eqb_spec (totalSeats (tally listed st)) 0); split; try done.
Qed.

(** X10: For one statement and one selection, updateStatementIndicator and
    updateConsistencyBar are cleared or hidden in the same cases, namely
    exactly when the seats of the selected roster parties with a stance of
    1, 0 or -1 total 0, and otherwise they show the same emoji and the same
    rounded percentage. *)
Theorem statement_views_agree parties sel st :
  (updateStatementIndicator parties sel st = None
   ↔ totalSeats (tally (coalitionPartiesList parties sel) st) = 0) ∧
  (updateConsistencyBar parties sel st = None
   ↔ totalSeats (tally (coalitionPartiesList parties sel) st) = 0) ∧
  ind_textContent <$> updateStatementIndicator parties sel st
    = cons_emoji <$> updateConsistencyBar parties sel st ∧
  ind_rounded <$> updateStatementIndicator parties sel st
    = cons_rounded <$> updateConsistencyBar parties sel st.
Proof.
  rewrite <- emoji_of_None, <- indicator_emoji.
  split; [|split; [|split]].
  - now destruct (updateStatementIndicator parties sel st).
  - rewrite indicator_emoji, <- consistency_emoji.
    now destruct (updateConsistencyBar parties sel st).
  - now rewrite indicator_emoji, consistency_emoji.
  - unfold updateStatementIndicator, updateConsistencyBar.
    destruct (size sel =? 0)%nat; [reflexivity|].
    destruct (length _ =? 0)%nat; [reflexivity|]. cbv zeta.
    destruct_ifs; reflexivity.
Qed.

(** X11: When the indicator is shown, the majority position in its title is
    eens exactly when the agreeing seats are at least the neutral and the
    disagreeing seats (agree wins every tie), oneens exactly when the
    disagreeing seats exceed the agreeing seats and are at least the neutral
    seats, and neutraal exactly when the neutral seats exceed both. *)
Theorem indicator_majorityStance parties sel st i :
  updateStatementIndicator parties sel st = Some i →
  (ind_majorityStance i = "eens"
   ↔ neutralSeats (tally (coalitionPartiesList parties sel) st)
       ≤ agreeSeats (tally (coalitionPartiesList parties sel) st) ∧
     disagreeSeats (tally (coalitionPartiesList parties sel) st)
       ≤ agreeSeats (tally (coalitionPartiesList parties sel) st)) ∧
  (ind_majorityStance i = "oneens"
   ↔ agreeSeats (tally (coalitionPartiesList parties sel) st)
       < disagreeSeats (tally (coalitionPartiesList parties sel) st) ∧
     neutralSeats (tally (coalitionPartiesList parties sel) st)
       ≤ disagreeSeats (tally (coalitionPartiesList parties sel) st)) ∧
  (ind_majorityStance i = "neutraal"
   ↔ agreeSeats (tally (coalitionPartiesList parties sel) st)
       < neutralSeats (tally (coalitionPartiesList parties sel) st) ∧
     disagreeSeats (tally (coalitionPartiesList parties sel) st)
       < neutralSeats (tally (coalitionPartiesList parties sel) st)).
Proof.
  unfold updateStatementIndicator.
  destruct (size sel =? 0)%nat; [discriminate|].
  destruct (length _ =? 0)%nat; [discriminate|]. cbv zeta.
  rewrite seats_by_stance_tally.
  set (t := tally (coalitionPartiesList parties sel) st).
  destruct (totalSeats t =? 0); [discriminate|].
  unfold maxSeats.
  destruct (Z.eqb_spec (Z.max (Z.max (agreeSeats t) (neutralSeats t)) (disagreeSeats t))
              (agreeSeats t)) as [Ha|Ha];
    [|destruct (Z.eqb_spec (Z.max (Z.max (agreeSeats t) (neutralSeats t)) (disagreeSeats t))
                  (disagreeSeats t)) as [Hd|Hd]];
    destruct_ifs; intros [= <-]; cbn [ind_majorityStance];
    repeat split; intros; try discriminate; try lia.
Qed.

Lemma indicator_majorityStance_witness :
  ∃ i, updateStatementIndicator roster {["B"; "C"]} statement2 = Some i ∧
       (ind_majorityStance i = "eens"
        ↔ neutralSeats (tally (coalitionPartiesList roster {["B"; "C"]}) statement2)
            ≤ agreeSeats (tally (coalitionPartiesList roster {["B"; "C"]}) statement2) ∧
          disagreeSeats (tally (coalitionPartiesList roster {["B"; "C"]}) statement2)
            ≤ agreeSeats (tally (coalitionPartiesList roster {["B"; "C"]}) statement2)).
Proof.
  destruct (updateStatementIndicator roster {["B"; "C"]} statement2) as [i|] eqn:Hi.
  - exists i. split; [reflexivity|].
    exact (proj1 (indicator_majorityStance roster {["B"; "C"]} statement2 i Hi)).
  - vm_compute in Hi. discriminate Hi.
Defined.

(** X12: When the indicator is shown, the statement gets a coloured border
    exactly when the emoji is not the divided one (the majority reaches 60
    percent) and the majority position is not neutraal; a divided or neutral
    statement never gets one. *)
Theorem indicator_border parties sel st i :
  updateStatementIndicator parties sel st = Some i →
  (ind_border i ≠ None →
   ind_textContent i ≠ "⚡" ∧ ind_majorityStance i ≠ "neutraal") ∧
  (ind_textContent i = "⚡" ∨ ind_majorityStance i = "neutraal" →
   ind_border i = None) ∧
  (ind_textContent i ≠ "⚡" → ind_majorityStance i ≠ "neutraal" →
   ind_border i ≠ None).
Proof.
  unfold updateStatementIndicator.
  destruct (size sel =? 0)%nat; [discriminate|].
  destruct (length _ =? 0)%nat; [discriminate|]. cbv zeta.
  destruct (totalSeats _ =? 0); [discriminate|].
  unfold at_least.
  match goal with |- context [percent ?m ?t] => set (rate := percent m t) end.
  assert (H8060 : Number.leb (Number.of_Z 80) rate = true
                  → Number.leb (Number.of_Z 60) rate = true).
  { unfold Number.of_Z. destruct rate as [q| | |]; cbn; try done.
    intros H. apply bool_decide_eq_true in H. apply bool_decide_eq_true.
    eapply Qcle_trans; [|exact H]. by_compute. }
  destruct (Number.leb (Number.of_Z 80) rate), (Number.leb (Number.of_Z 60) rate);
    try (specialize (H8060 eq_refl); discriminate);
    destruct_ifs;
    intros [= <-]; cbn; repeat split; intros; try done;
    try (destruct H; discriminate); try discriminate.
Qed.

Lemma indicator_border_witness :
  ∃ i, updateStatementIndicator roster {["A"; "B"]} statement1 = Some i ∧
       (ind_textContent i ≠ "⚡" → ind_majorityStance i ≠ "neutraal" →
        ind_border i ≠ None).
Proof.
  destruct (updateStatementIndicator roster {["A"; "B"]} statement1) as [i|] eqn:Hi.
  - exists i. split; [reflexivity|].
    exact (proj2 (proj2 (indicator_border roster {["A"; "B"]} statement1 i Hi))).
  - vm_compute in Hi. discriminate Hi.
Defined.

(** ** The agreement overview *)

Lemma count_emoji_cons listed e st sts :
  count_emoji listed e (st :: sts)
  = ((if decide (emoji_of listed st = Some e) then 1 else 0) + count_emoji listed e sts)%nat.
Proof. unfold count_emoji. rewrite filter_cons. now destruct (decide _). Qed.

Lemma count_level_from listed sts levels :
  for_of sts levels (count_level listed) =
  {| unified := unified levels + count_emoji listed "🤝" sts;
     moderate := moderate levels + count_emoji listed "😐" sts;
     divided := divided levels + count_emoji listed "⚡" sts |}.
Proof.
  revert levels. induction sts as [|st sts IH]; intros levels.
  - destruct levels. unfold count_emoji. simpl. f_equal; lia.
  - rewrite for_of_cons, IH, !count_emoji_cons.
    unfold count_level, emoji_of. cbv zeta.
    destruct (totalSeats _ =? 0); [simpl; f_equal; lia|].
    destruct (at_least _ 80); [simpl; f_equal; lia|].
    destruct (at_least _ 60); simpl; f_equal; lia.
Qed.

Lemma emoji_of_cases listed st e :
  emoji_of listed st = Some e → e = "🤝" ∨ e = "😐" ∨ e = "⚡".
Proof.
  unfold emoji_of. cbv zeta. destruct_ifs; intros [= <-]; auto.
Qed.

Lemma count_emoji_zero listed sts :
  (count_emoji listed "🤝" sts + count_emoji listed "😐" sts
   + count_emoji listed "⚡" sts = 0)%nat
  ↔ ∀ st, st ∈ sts → emoji_of listed st = None.
Proof.
  induction sts as [|st sts IH].
  - split; [intros _ st H; inversion H|reflexivity].
  - rewrite !count_emoji_cons. split.
    + intros H st' Hst'. apply elem_of_cons in Hst' as [->|Hst'].
      * destruct (emoji_of listed st) as [e|] eqn:He; [|reflexivity].
        destruct (emoji_of_cases _ _ _ He) as [-> | [-> | ->]];
          repeat (rewrite ?decide_True in H by done; simpl in H); lia.
      * apply IH; [|exact Hst']. lia.
    + intros H. rewrite (H st) by left.
      rewrite !decide_False by done. simpl. apply IH. intros. apply H. now right.
Qed.

(** X13: The agreement overview is hidden exactly when the indicator of
    every statement is cleared; when it is shown, its three counters are the
    numbers of statements whose indicator shows the handshake, the neutral
    face and the lightning. *)
Theorem updateAgreementOverview_counts parties sts sel :
  (updateAgreementOverview parties sts sel = None
   ↔ ∀ st, st ∈ sts → updateStatementIndicator parties sel st = None) ∧
  (∀ o, updateAgreementOverview parties sts sel = Some o →
     unified (overview_levels o)
       = length (filter (λ st, ind_textContent <$> updateStatementIndicator parties sel st
                               = Some "🤝") sts) ∧
     moderate (overview_levels o)
       = length (filter (λ st, ind_textContent <$> updateStatementIndicator parties sel st
                               = Some "😐") sts) ∧
     divided (overview_levels o)
       = length (filter (λ st, ind_textContent <$> updateStatementIndicator parties sel st
                               = Some "⚡") sts)).
Proof.
  set (listed := coalitionPartiesList parties sel).
  assert (Hind : ∀ st, updateStatementIndicator parties sel st = None
                       ↔ emoji_of listed st = None).
  { intros st. unfold listed. rewrite <- indicator_emoji.
    now destruct (updateStatementIndicator parties sel st). }
  assert (Hcount : ∀ e,
    length (filter (λ st, ind_textContent <$> updateStatementIndicator parties sel st
                          = Some e) sts) = count_emoji listed e sts).
  { intros e. unfold count_emoji. f_equal. apply list_filter_iff.
    intros st. unfold listed. now rewrite indicator_emoji. }
  rewrite !Hcount. setoid_rewrite Hind.
  unfold updateAgreementOverview. fold listed. cbv zeta. rewrite count_level_from.
  cbn [unified moderate divided]. rewrite !Nat.add_0_l.
  destruct (Nat.eqb_spec (size sel) 0) as [Hsize|_].
  { split; [|discriminate]. split; [|reflexivity]. intros _ st _.
    unfold listed. rewrite coalitionPartiesList_empty by done. apply emoji_of_nil. }
  destruct listed as [|p l] eqn:Hlisted.
  { split; [|discriminate]. split; [|reflexivity]. intros _ st _. reflexivity. }
  cbn [length Nat.eqb].
  destruct (Nat.eqb_spec (count_emoji (p :: l) "🤝" sts + count_emoji (p :: l) "😐" sts
                          + count_emoji (p :: l) "⚡" sts) 0) as [Hzero|Hpos].
  - split; [|discriminate]. split; [|reflexivity]. intros _.
    now apply count_emoji_zero.
  - split.
    + split; [discriminate|]. intros H. now apply count_emoji_zero in H.
    + intros o [= <-]. cbn. repeat split; lia.
Qed.


(** ** The views and the score *)

Lemma percent_Fin m t :
  t ≠ 0 → percent m t = Fin (Qc_of_Z m / Qc_of_Z t * Qc_of_Z 100)%Qc.
Proof.
  intros Ht. unfold percent, Number.of_Z.
  rewrite div_Fin by now apply Qc_of_Z_neq_0. reflexivity.
Qed.

Lemma at_least_Fin q k : at_least (Fin q) k = bool_decide (Qc_of_Z k ≤ q)%Qc.
Proof. reflexivity. Qed.

Lemma score_of_fraction_high (f : Qc) :
  (Qc_of_Z 80 ≤ f * Qc_of_Z 100)%Qc →
  (Q2Qc (6 # 10) ≤ Qc_max 0 ((f - Q2Qc (1 # 2)) / Q2Qc (1 # 2)))%Qc.
Proof.
  intros H. eapply Qcle_trans; [|apply Qc_max_r].
  qc_to_q. unfold Qdiv, inject_Z in *. cbn [Qinv Qnum Qden]. lra.
Qed.

Lemma score_of_fraction_middle (f : Qc) :
  (Qc_of_Z 60 ≤ f * Qc_of_Z 100)%Qc → ¬ (Qc_of_Z 80 ≤ f * Qc_of_Z 100)%Qc →
  (Q2Qc (2 # 10) ≤ Qc_max 0 ((f - Q2Qc (1 # 2)) / Q2Qc (1 # 2)))%Qc ∧
  (Qc_max 0 ((f - Q2Qc (1 # 2)) / Q2Qc (1 # 2)) < Q2Qc (6 # 10))%Qc.
Proof.
  intros H60 H80. apply Qcnot_le_lt in H80. split.
  - eapply Qcle_trans; [|apply Qc_max_r].
    qc_to_q. unfold Qdiv, inject_Z in *. cbn [Qinv Qnum Qden]. lra.
  - unfold Qc_max. case_bool_decide; [|by_compute].
    qc_to_q. unfold Qdiv, inject_Z in *. cbn [Qinv Qnum Qden]. lra.
Qed.

Lemma score_of_fraction_low (f : Qc) :
  ¬ (Qc_of_Z 60 ≤ f * Qc_of_Z 100)%Qc →
  (Qc_max 0 ((f - Q2Qc (1 # 2)) / Q2Qc (1 # 2)) < Q2Qc (2 # 10))%Qc.
Proof.
  intros H60. apply Qcnot_le_lt in H60.
  unfold Qc_max. case_bool_decide; [|by_compute].
  qc_to_q. unfold Qdiv, inject_Z in *. cbn [Qinv Qnum Qden]. lra.
Qed.

(** The score at the thresholds of the emoji, with a margin of 0.01. *)
Lemma score_slack (f : Qc) :
  ((Qc_of_Z 80 ≤ f * Qc_of_Z 100 →
    Q2Qc (59 # 100) ≤ Qc_max 0 ((f - Q2Qc (1 # 2)) / Q2Qc (1 # 2))) ∧
   (Qc_of_Z 60 ≤ f * Qc_of_Z 100 → ¬ Qc_of_Z 80 ≤ f * Qc_of_Z 100 →
    Q2Qc (19 # 100) ≤ Qc_max 0 ((f - Q2Qc (1 # 2)) / Q2Qc (1 # 2)) ≤ Q2Qc (61 # 100)) ∧
   (¬ Qc_of_Z 60 ≤ f * Qc_of_Z 100 →
    Qc_max 0 ((f - Q2Qc (1 # 2)) / Q2Qc (1 # 2)) ≤ Q2Qc (21 # 100)))%Qc.
Proof.
  split; [|split].
  - intros H. eapply Qcle_trans; [|now apply score_of_fraction_high]. by_compute.
  - intros H60 H80. destruct (score_of_fraction_middle f H60 H80) as [Hlo Hhi]. split.
    + eapply Qcle_trans; [|exact Hlo]. by_compute.
    + apply Qclt_le_weak. eapply Qclt_le_trans; [exact Hhi|]. by_compute.
  - intros H60. apply Qclt_le_weak.
    eapply Qclt_le_trans; [now apply score_of_fraction_low|]. by_compute.
Qed.

(** X15: The emoji of a statement and the score that
    [calculateCoalitionAgreement] adds for it, for the same parties: to
    within 0.01, a statement with the handshake adds at least 0.6, one with
    the neutral face adds between 0.2 and 0.6, and one with the lightning
    adds at most 0.2; a statement whose indicator is cleared adds
    nothing. *)
Theorem indicator_and_score parties sel st :
  match updateStatementIndicator parties sel st with
  | None =>
      ∀ total, score_statement (coalitionPartiesList parties sel) total st = total
  | Some i =>
      ∃ s, agreementScore (tally (coalitionPartiesList parties sel) st) = Fin s ∧
           (ind_textContent i = "🤝" → Q2Qc (59 # 100) ≤ s)%Qc ∧
           (ind_textContent i = "😐" → Q2Qc (19 # 100) ≤ s ≤ Q2Qc (61 # 100))%Qc ∧
           (ind_textContent i = "⚡" → s ≤ Q2Qc (21 # 100))%Qc
  end.
Proof.
  set (listed := coalitionPartiesList parties sel).
  pose proof (indicator_emoji parties sel st) as Hemoji. fold listed in Hemoji.
  destruct (updateStatementIndicator parties sel st) as [i|].
  - simpl in Hemoji. symmetry in Hemoji.
    assert (Ht : totalSeats (tally listed st) ≠ 0).
    { intros H. apply emoji_of_None in H. congruence. }
    exists (agreement_of_fraction (tally listed st)).
    split; [now apply agreementScore_Fin|].
    revert Hemoji. unfold emoji_of. cbv zeta. rewrite seats_by_stance_tally.
    rewrite (proj2 (Z.eqb_neq _ _) Ht), percent_Fin by exact Ht.
    rewrite !at_least_Fin. unfold agreement_of_fraction.
    generalize (Qc_of_Z (maxSeats (tally listed st)) / Qc_of_Z (totalSeats (tally listed st)))%Qc.
    intros f. destruct (score_slack f) as (Hhigh & Hmiddle & Hlow).
    repeat case_bool_decide; intros [= <-];
      repeat split; intros; try discriminate; auto; now apply Hmiddle.
  - simpl in Hemoji. symmetry in Hemoji. apply emoji_of_None in Hemoji.
    intros total. unfold score_statement. cbv zeta. now rewrite Hemoji.
Qed.

(** ** The stance bars *)

Lemma percent_bounds x t :
  0 < x ≤ t →
  ∃ q, percent x t = Fin q ∧ (0 < q ≤ Qc_of_Z 100)%Qc.
Proof.
  intros [Hx Hxt]. rewrite percent_Fin by lia. eexists. split; [reflexivity|].
  assert (Hf0 : (0 < Qc_of_Z x / Qc_of_Z t)%Qc).
  { unfold Qcdiv. apply Qcmult_pos_pos; [now apply Qc_of_Z_pos|].
    apply Qcinv_pos, Qc_of_Z_pos. lia. }
  assert (Hf1 : (Qc_of_Z x / Qc_of_Z t ≤ 1)%Qc).
  { rewrite <- Z2Qc_inj_1, <- (Qc_div_1 1). apply Qc_frac_le; lia. }
  split.
  - apply Qcmult_pos_pos; [exact Hf0|by_compute].
  - apply Qcle_trans with (1 * Qc_of_Z 100)%Qc;
      [|rewrite Qcmult_1_l; apply Qcle_refl].
    apply Qcmult_le_compat_r; [exact Hf1|by_compute].
Qed.

Lemma percent_0 t : t ≠ 0 → percent 0 t = Number.of_Z 0.
Proof.
  intros Ht. rewrite percent_Fin by exact Ht. apply (f_equal Fin).
  rewrite Z2Qc_inj_0. unfold Qcdiv. now rewrite !Qcmult_0_l.
Qed.

Lemma percent_self t : t ≠ 0 → percent t t = Number.of_Z 100.
Proof.
  intros Ht. rewrite percent_Fin by exact Ht. apply (f_equal Fin).
  unfold Qcdiv. rewrite Qcmult_inv_r by now apply Qc_of_Z_neq_0.
  apply Qcmult_1_l.
Qed.

(** A width: the percentage that a part is of a positive total. *)
Lemma percent_part x t :
  0 ≤ x ≤ t → 0 < t →
  ∃ q, percent x t = Fin q ∧ (0 ≤ q ≤ Qc_of_Z 100)%Qc ∧
       (x = 0 ↔ q = 0%Qc) ∧ (x = t → q = Qc_of_Z 100).
Proof.
  intros [Hx Hxt] Ht. destruct (Z.eq_dec x 0) as [->|Hne].
  - exists 0%Qc. split; [|split; [|split]].
    + rewrite percent_0 by lia. unfold Number.of_Z. now rewrite Z2Qc_inj_0.
    + split; by_compute.
    + tauto.
    + lia.
  - destruct (percent_bounds x t) as (q & Hq & Hpos & Hle); [lia|].
    exists q. split; [exact Hq|]. split; [|split].
    + split; [now apply Qclt_le_weak|exact Hle].
    + split; [tauto|]. intros ->. now apply (irreflexivity Qclt 0%Qc) in Hpos.
    + intros ->. rewrite percent_self in Hq by lia.
      unfold Number.of_Z in Hq. now injection Hq as <-.
Qed.

(** X14: When the agreement overview is shown, each of the three widths
    that it computes for its segments is a finite percentage between 0 and
    100; it is 0 exactly when its counter is 0 (the segment is then not
    shown), and it is exactly 100 when its counter holds all the counted
    statements. *)
Theorem updateAgreementOverview_widths parties sts sel o :
  updateAgreementOverview parties sts sel = Some o →
  Forall (λ '(count, width),
            ∃ q, width = Fin q ∧ (0 ≤ q ≤ Qc_of_Z 100)%Qc ∧
                 (count = 0%nat ↔ q = 0%Qc) ∧
                 (count = (unified (overview_levels o) + moderate (overview_levels o)
                           + divided (overview_levels o))%nat → q = Qc_of_Z 100))
         [(unified (overview_levels o), unifiedPercent o);
          (moderate (overview_levels o), moderatePercent o);
          (divided (overview_levels o), dividedPercent o)].
Proof.
  unfold updateAgreementOverview. cbv zeta.
  destruct (size sel =? 0)%nat; [discriminate|].
  destruct (length _ =? 0)%nat; [discriminate|].
  match goal with |- context [for_of sts ?i ?b] => set (levels := for_of sts i b) end.
  destruct (Nat.eqb_spec (unified levels + moderate levels + divided levels) 0)
    as [|Hpos]; [discriminate|].
  intros [= <-].
  cbn [overview_levels unifiedPercent moderatePercent dividedPercent].
  set (total := (unified levels + moderate levels + divided levels)%nat) in *.
  assert (Hwidth : ∀ count, (count ≤ total)%nat →
    ∃ q, (Number.of_nat count / Number.of_nat total * Number.of_Z 100)%num = Fin q ∧
         (0 ≤ q ≤ Qc_of_Z 100)%Qc ∧
         (count = 0%nat ↔ q = 0%Qc) ∧ (count = total → q = Qc_of_Z 100)).
  { intros count Hcount.
    destruct (percent_part (Z.of_nat count) (Z.of_nat total)) as (q & Hq & Hb & H0 & H100);
      [lia|lia|].
    exists q. split; [exact Hq|]. split; [exact Hb|]. split.
    - rewrite <- H0. lia.
    - intros ->. now apply H100. }
  repeat constructor; apply Hwidth; unfold total; lia.
Qed.

Lemma updateAgreementOverview_widths_witness :
  ∃ o, updateAgreementOverview roster [statement1; statement2; statement3] {["B"; "C"]}
       = Some o ∧
       ∃ q, unifiedPercent o = Fin q ∧ (0 ≤ q ≤ Qc_of_Z 100)%Qc.
Proof.
  destruct (updateAgreementOverview roster [statement1; statement2; statement3]
              {["B"; "C"]}) as [o|] eqn:Ho.
  - exists o. split; [reflexivity|].
    pose proof (updateAgreementOverview_widths roster
                  [statement1; statement2; statement3] {["B"; "C"]} o Ho) as Hw.
    apply Forall_cons_1 in Hw as [(q & Hq & Hb & _) _].
    exists q. split; [exact Hq|exact Hb].
  - vm_compute in Ho. discriminate Ho.
Defined.

Lemma segments_of_tally (ca cn cd : string) (t : Tally) :
  0 ≤ agreeSeats t → 0 ≤ neutralSeats t → 0 ≤ disagreeSeats t →
  ∀ bar,
  bar =
    segment_if_positive ca (percent (agreeSeats t) (totalSeats t)) (agreeSeats t)
    ++ segment_if_positive cn (percent (neutralSeats t) (totalSeats t)) (neutralSeats t)
    ++ segment_if_positive cd (percent (disagreeSeats t) (totalSeats t)) (disagreeSeats t) →
  (bar = [] ↔ totalSeats t = 0) ∧
  Forall (λ s, 0 < seg_seats s ∧
               ∃ q, seg_width s = Fin q ∧ (0 < q ≤ Qc_of_Z 100)%Qc) bar ∧
  total_seats bar = totalSeats t ∧
  (∀ s, bar = [s] → seg_width s = Number.of_Z 100).
Proof.
  destruct t as [a n d]. unfold totalSeats. cbn [agreeSeats neutralSeats disagreeSeats].
  intros Ha Hn Hd bar Hbar_eq.
  split; [|split; [|split]].
  - rewrite Hbar_eq. unfold segment_if_positive.
    destruct (Z.ltb_spec 0 a), (Z.ltb_spec 0 n), (Z.ltb_spec 0 d);
      simpl; split; intros Hx; try discriminate; try lia; reflexivity.
  - rewrite Hbar_eq. rewrite !Forall_app. unfold segment_if_positive.
    repeat split;
      match goal with |- Forall _ (if 0 <? ?x then _ else _) =>
        destruct (Z.ltb_spec 0 x); [|constructor] end;
      (constructor; [|constructor]); cbn [seg_seats seg_width];
      (split; [assumption|apply percent_bounds; lia]).
  - rewrite Hbar_eq. unfold total_seats, segment_if_positive.
    destruct (Z.ltb_spec 0 a), (Z.ltb_spec 0 n), (Z.ltb_spec 0 d); simpl; lia.
  - intros s. rewrite Hbar_eq. unfold segment_if_positive.
    destruct (Z.ltb_spec 0 a), (Z.ltb_spec 0 n), (Z.ltb_spec 0 d);
      simpl; intros [= <-]; cbn [seg_width];
      match goal with
      | |- percent ?x _ = _ =>
          replace (a + n + d) with x by lia; apply percent_self; lia
      end.
Qed.

(** X16: For a roster without negative seats, the bar of the full chamber is
    empty exactly when the seats with a stance of 1, 0 or -1 on the
    statement total 0; every segment it shows prints a positive seat count
    and has a width that is a finite percentage above 0 and at most 100; the
    printed seats add up to the seats with a stance, and a bar of a single
    segment has the width 100. *)
Theorem updateFullBar_segments parties st :
  (∀ p, p ∈ parties → 0 ≤ seats p) →
  (updateFullBar parties st = [] ↔ totalSeats (tally parties st) = 0) ∧
  Forall (λ s, 0 < seg_seats s ∧
               ∃ q, seg_width s = Fin q ∧ (0 < q ≤ Qc_of_Z 100)%Qc)
         (updateFullBar parties st) ∧
  total_seats (updateFullBar parties st) = totalSeats (tally parties st) ∧
  (∀ s, updateFullBar parties st = [s] → seg_width s = Number.of_Z 100).
Proof.
  intros Hseats. unfold updateFullBar. cbv zeta. rewrite seats_by_stance_tally.
  destruct (spec_tally_nonneg parties st Hseats) as (Ha & Hn & Hd).
  rewrite <- tally_spec in Ha, Hn, Hd.
  now eapply segments_of_tally.
Qed.

Lemma updateFullBar_segments_witness :
  total_seats (updateFullBar roster statement1) = totalSeats (tally roster statement1).
Proof.
  refine (proj1 (proj2 (proj2 (updateFullBar_segments roster statement1 _)))).
  apply (proj1 (Forall_forall (λ p, 0 ≤ seats p) roster)). by_compute.
Defined.

(** The loop of [updateCoalitionBar_Statement] sorts the selected roster
    parties by stance. *)
Lemma collect_party_from parties sel st g :
  for_of parties g (collect_party sel st) =
  let listed := coalitionPartiesList parties sel in
  {| group_seats := for_of listed (group_seats g) (count_party st);
     agreeParties := agreeParties g ++ with_stance 1 st listed;
     neutralParties := neutralParties g ++ with_stance 0 st listed;
     disagreeParties := disagreeParties g ++ with_stance (-1) st listed |}.
Proof.
  cbv zeta. revert g. induction parties as [|p ps IH]; intros g.
  - destruct g. simpl. now rewrite !app_nil_r.
  - rewrite for_of_cons, IH. unfold coalitionPartiesList, collect_party, with_stance.
    cbv zeta. simpl. destruct (has sel p); [|reflexivity].
    rewrite for_of_cons. unfold count_party at 2. cbv zeta. simpl.
    destruct (positions st !! name p) as [[z| |]|]; simpl; try reflexivity.
    destruct (Z.eqb_spec z 1) as [->|H1]; [simpl; unfold push; now rewrite <- !app_assoc|].
    destruct (Z.eqb_spec z 0) as [->|H0]; [simpl; unfold push; now rewrite <- !app_assoc|].
    destruct (Z.eqb_spec z (-1)) as [->|Hm]; [simpl; unfold push; now rewrite <- !app_assoc|].
    reflexivity.
Qed.

Lemma with_stance_seats v st listed :
  sum_seats (with_stance v st listed) = bucketSeats v listed st.
Proof.
  induction listed as [|p l IH]; [reflexivity|].
  rewrite bucketSeats_cons. unfold with_stance in *. simpl.
  destruct (strict_eq_num _ v); [rewrite sum_seats_cons|]; lia.
Qed.

Lemma with_stance_subset v st listed : with_stance v st listed ⊆ listed.
Proof.
  intros p Hp. unfold with_stance in Hp.
  now apply list_elem_of_In, filter_In in Hp as [Hp%list_elem_of_In _].
Qed.

(** X17: For a roster without negative seats, the coalition bar of a
    statement shows a message exactly when the indicator of the statement is
    cleared: the no-coalition message when nothing is selected and the no-
    data message otherwise. When it shows segments there is at least one,
    and each segment has a non-empty tooltip list of selected roster parties
    whose seats add up to the seats the segment prints. *)
Theorem updateCoalitionBar_Statement_cases parties sel st :
  (∀ p, p ∈ parties → 0 ≤ seats p) →
  match updateCoalitionBar_Statement parties sel st with
  | EmptyCoalition text =>
      updateStatementIndicator parties sel st = None ∧
      (text = "Geen coalitie geselecteerd" ↔ size sel = 0%nat) ∧
      (text = "Geen data beschikbaar" ↔ size sel ≠ 0%nat)
  | StanceBar segments =>
      updateStatementIndicator parties sel st ≠ None ∧
      segments ≠ [] ∧
      Forall (λ '(s, tooltip),
                tooltip ≠ [] ∧ seg_seats s = sum_seats tooltip ∧
                tooltip ⊆ coalitionPartiesList parties sel) segments
  end.
Proof.
  intros Hseats. unfold updateCoalitionBar_Statement. cbv zeta.
  assert (Hind : updateStatementIndicator parties sel st = None
                 ↔ totalSeats (tally (coalitionPartiesList parties sel) st) = 0).
  { rewrite <- emoji_of_None, <- indicator_emoji.
    now destruct (updateStatementIndicator parties sel st). }
  destruct (Nat.eqb_spec (size sel) 0) as [Hsize|Hsize].
  { split; [|split; [tauto|split; [discriminate|tauto]]].
    apply Hind. now rewrite coalitionPartiesList_empty. }
  rewrite collect_party_from. cbv zeta. cbn [group_seats agreeParties neutralParties
    disagreeParties app].
  fold (seats_by_stance (coalitionPartiesList parties sel) st).
  rewrite seats_by_stance_tally.
  set (listed := coalitionPartiesList parties sel) in *.
  destruct (Z.eqb_spec (totalSeats (tally listed st)) 0) as [Hzero|Hpos].
  { split; [now apply Hind|]. split; [split; [discriminate|tauto]|tauto]. }
  split; [now rewrite Hind|].
  rewrite tally_spec in *. unfold spec_tally in *.
  cbn [agreeSeats neutralSeats disagreeSeats] in *.
  rewrite <- !with_stance_seats in *.
  assert (Hne : ∀ l, 0 < sum_seats l → l ≠ []) by (intros l H ->; inversion H).
  unfold tooltip_segment_if_positive. unfold totalSeats in Hpos. cbn in Hpos.
  split.
  - destruct (Z.ltb_spec 0 (sum_seats (with_stance 1 st listed))),
      (Z.ltb_spec 0 (sum_seats (with_stance 0 st listed))),
      (Z.ltb_spec 0 (sum_seats (with_stance (-1) st listed))); try discriminate.
    exfalso.
    assert (Hnonneg : ∀ v, 0 ≤ sum_seats (with_stance v st listed)).
    { intros v. apply sum_seats_nonneg. intros p Hp.
      apply with_stance_subset, elem_of_coalitionPartiesList in Hp as [Hp _].
      now apply Hseats. }
    pose proof (Hnonneg 1). pose proof (Hnonneg 0). pose proof (Hnonneg (-1)). lia.
  - rewrite !Forall_app. repeat split;
      match goal with |- Forall _ (if 0 <? ?x then _ else _) =>
        destruct (Z.ltb_spec 0 x); [|constructor] end;
      (constructor; [|constructor]); cbn [seg_seats];
      (split; [now apply Hne|split; [reflexivity|apply with_stance_subset]]).
Qed.

Lemma updateCoalitionBar_Statement_cases_witness :
  match updateCoalitionBar_Statement roster {["A"; "C"]} statement1 with
  | EmptyCoalition _ => False
  | StanceBar segments => segments ≠ []
  end.
Proof.
  assert (Hseats : ∀ p, p ∈ roster → 0 ≤ seats p).
  { apply (proj1 (Forall_forall (λ p, 0 ≤ seats p) roster)). by_compute. }
  pose proof (updateCoalitionBar_Statement_cases roster {["A"; "C"]} statement1 Hseats)
    as Hcases.
  destruct (updateCoalitionBar_Statement roster {["A"; "C"]} statement1)
    as [text|segments] eqn:Hbar.
  - vm_compute in Hbar. discriminate Hbar.
  - exact (proj1 (proj2 Hcases)).
Defined.

(** ** More on combinations *)

Lemma selections_all {A} (l : list A) : selections l (length l) = [l].
Proof.
  induction l as [|x l IH]; [reflexivity|].
  cbn [length selections]. rewrite IH, selections_short by (simpl; lia).
  reflexivity.
Qed.

Lemma elem_of_getCombinations {A : Type} (arr : list A) (size : nat) combo :
  combo ∈ getCombinations arr size → length combo = size ∧ combo `sublist_of` arr.
Proof.
  destruct size as [|k]; [intros H; now apply elem_of_nil in H|].
  rewrite getCombinations_selections. intros H.
  apply elem_of_selections in H. tauto.
Qed.

(** X18: getCombinations(arr, size) returns no combination when size exceeds
    arr.length, returns exactly [arr] when size = arr.length >= 1, and every
    combination it returns has size elements and keeps the order of arr. *)
Theorem getCombinations_bounds {A : Type} (arr : list A) (size : nat) :
  ((length arr < size)%nat → getCombinations arr size = []) ∧
  ((1 ≤ size)%nat → size = length arr → getCombinations arr size = [arr]) ∧
  (∀ combo, combo ∈ getCombinations arr size →
     length combo = size ∧ combo `sublist_of` arr).
Proof.
  split; [|split].
  - destruct size as [|k]; [reflexivity|]. intros Hlen.
    rewrite getCombinations_selections. now apply selections_short.
  - destruct size as [|k]; [lia|].
    rewrite getCombinations_selections. intros _ ->. apply selections_all.
  - apply elem_of_getCombinations.
Qed.

(** ** More on the generator: no coalition twice *)

Lemma required_available_NoDup parties req :
  NoDup parties →
  NoDup (requiredParties_of parties req ++ availableParties_of parties req).
Proof. intros H. now rewrite required_available_Permutation. Qed.

(** X19: For a roster without repeated entries, generateMajorityCoalitions
    returns no coalition twice, every coalition consists of distinct roster
    parties, and no two returned coalitions have the same parties in a
    different order. *)
Theorem generateMajorityCoalitions_NoDup parties req :
  NoDup parties →
  NoDup (generateMajorityCoalitions parties req) ∧
  (∀ c, c ∈ generateMajorityCoalitions parties req → NoDup c ∧ c ⊆ parties) ∧
  (∀ c1 c2, c1 ∈ generateMajorityCoalitions parties req →
            c2 ∈ generateMajorityCoalitions parties req → c1 ≡ₚ c2 → c1 = c2).
Proof.
  intros Hparties.
  pose proof (required_available_NoDup parties req Hparties) as Hnd.
  apply NoDup_app in Hnd as (Hreq & _ & Havail).
  split; [|split].
  - rewrite generateMajorityCoalitions_unfold.
    destruct (truthy req && _); [constructor|].
    apply NoDup_bind.
    + intros k1 k2 c _ _ Hc1 Hc2.
      apply list_elem_of_fmap in Hc1 as (combo1 & -> & Hcombo1).
      apply list_elem_of_fmap in Hc2 as (combo2 & H12 & Hcombo2).
      apply app_inv_head in H12 as <-.
      apply list_elem_of_In, filter_In in Hcombo1 as [Hcombo1%list_elem_of_In _].
      apply list_elem_of_In, filter_In in Hcombo2 as [Hcombo2%list_elem_of_In _].
      apply elem_of_getCombinations in Hcombo1 as [<- _].
      now apply elem_of_getCombinations in Hcombo2 as [<- _].
    + intros k Hk. apply (NoDup_fmap_2 _).
      apply NoDup_ListNoDup, List.NoDup_filter, NoDup_ListNoDup.
      apply elem_of_seq in Hk. destruct k as [|k]; [lia|].
      rewrite getCombinations_selections. now apply NoDup_selections.
    + apply NoDup_seq.
  - intros c Hc. now apply (generated_subset_NoDup parties req).
  - intros c1 c2 Hc1 Hc2 Hperm.
    apply generateMajorityCoalitions_elem in Hc1
      as (_ & combo1 & Hsub1 & _ & _ & -> & _).
    apply generateMajorityCoalitions_elem in Hc2
      as (_ & combo2 & Hsub2 & _ & _ & -> & _).
    f_equal. apply (sublist_Permutation_eq (availableParties_of parties req)); try done.
    now apply Permutation_app_inv_l in Hperm.
Qed.

Lemma generateMajorityCoalitions_NoDup_witness :
  NoDup (generateMajorityCoalitions roster None).
Proof. apply (generateMajorityCoalitions_NoDup roster None). by_compute. Defined.

(** ** More on the scorer *)

Lemma bucketSeats_Permutation v c1 c2 st :
  c1 ≡ₚ c2 → bucketSeats v c1 st = bucketSeats v c2 st.
Proof.
  induction 1 as [|p c1 c2 _ IH|p q c|c1 c2 c3 _ IH1 _ IH2].
  - reflexivity.
  - rewrite !bucketSeats_cons. lia.
  - rewrite !bucketSeats_cons. lia.
  - congruence.
Qed.

Lemma tally_Permutation c1 c2 st : c1 ≡ₚ c2 → tally c1 st = tally c2 st.
Proof.
  intros H. rewrite !tally_spec. unfold spec_tally.
  now rewrite !(bucketSeats_Permutation _ c1 c2 st H).
Qed.

(** X20: The score object of calculateCoalitionAgreement does not depend on
    the order of the parties in the coalition: two orderings of the same
    parties get the same rate, averages, size and seats. *)
Theorem calculateCoalitionAgreement_Permutation c1 c2 sts :
  c1 ≡ₚ c2 →
  calculateCoalitionAgreement c1 sts = calculateCoalitionAgreement c2 sts.
Proof.
  intros Hperm. rewrite !calculateCoalitionAgreement_unfold.
  assert (Htotal : totalAgreementScore c1 sts = totalAgreementScore c2 sts).
  { unfold totalAgreementScore. generalize (Number.of_Z 0).
    induction sts as [|st sts IH]; intros acc; [reflexivity|].
    rewrite !for_of_cons.
    assert (score_statement c1 acc st = score_statement c2 acc st) as ->; [|apply IH].
    unfold score_statement. cbv zeta.
    now rewrite (tally_Permutation c1 c2 st Hperm). }
  assert (Havg : rawAverageAgreement c1 sts = rawAverageAgreement c2 sts).
  { unfold rawAverageAgreement. now rewrite Htotal. }
  assert (Hlen : length c1 = length c2) by now apply Permutation_length.
  assert (Hpen : sizePenalty c1 = sizePenalty c2).
  { unfold sizePenalty. now rewrite Hlen. }
  unfold rawAdjustedAgreement.
  now rewrite Havg, Hpen, Hlen, (sum_seats_Permutation c1 c2 Hperm).
Qed.

Lemma calculateCoalitionAgreement_Permutation_witness :
  calculateCoalitionAgreement [pC; pA; pB] [statement1; statement2]
  = calculateCoalitionAgreement [pA; pB; pC] [statement1; statement2].
Proof.
  apply calculateCoalitionAgreement_Permutation.
  apply (Permutation_cons_append [pA; pB] pC).
Defined.

Lemma agreement_of_fraction_unanimous t :
  totalSeats t ≠ 0 → maxSeats t = totalSeats t → agreement_of_fraction t = 1%Qc.
Proof.
  intros Ht Hmax. unfold agreement_of_fraction. rewrite Hmax.
  assert (Hone : (Qc_of_Z (totalSeats t) / Qc_of_Z (totalSeats t))%Qc = 1%Qc).
  { unfold Qcdiv. apply Qcmult_inv_r. now apply Qc_of_Z_neq_0. }
  rewrite Hone. apply Qc_is_canon. reflexivity.
Qed.

Lemma Qc_sum_ones (l : list Qc) :
  Forall (λ x, x = 1%Qc) l → Qc_sum l = Qc_of_Z (Z.of_nat (length l)).
Proof.
  induction 1 as [|x l -> _ IH]; [symmetry; apply Z2Qc_inj_0|].
  simpl. rewrite IH, Nat2Z.inj_succ, <- Z.add_1_l, Z2Qc_inj_add, Z2Qc_inj_1.
  reflexivity.
Qed.

Lemma round_1_decimal_Z (z : Z) : round_1_decimal (Qc_of_Z z) = Qc_of_Z z.
Proof.
  rewrite <- (Qcplus_0_l (Qc_of_Z z)) at 1.
  rewrite round_1_decimal_add_Z, round_1_decimal_0. apply Qcplus_0_l.
Qed.

(** X21: If on every statement (at least one) the largest of the three seat
    counts of the coalition equals their total and is not 0 (all its seats
    with a stance are on one side), the agreementRate is exactly 100 minus 5
    for each party beyond two (100, 95, 90, ...), for coalitions of up to 22
    parties. *)
Theorem agreementRate_unanimous c sts :
  sts ≠ [] → (length c ≤ 22)%nat →
  (∀ st, st ∈ sts →
     totalSeats (tally c st) ≠ 0 ∧ maxSeats (tally c st) = totalSeats (tally c st)) →
  agreementRate (calculateCoalitionAgreement c sts)
  = Number.of_Z (100 - 5 * partiesBeyondTwo c).
Proof.
  intros Hsts Hlen Hall.
  assert (Havg : spec_averageAgreement c sts = 1%Qc).
  { unfold spec_averageAgreement. rewrite Qc_sum_ones.
    - rewrite length_fmap. unfold Qcdiv. apply Qcmult_inv_r. now apply length_neq_0.
    - apply Forall_fmap, Forall_forall. intros st Hst.
      destruct (Hall st Hst) as [Ht Hmax]. simpl.
      unfold spec_statementAgreement. cbv zeta. rewrite <- tally_spec.
      rewrite decide_False by exact Ht.
      now apply agreement_of_fraction_unanimous. }
  rewrite agreementRate_Fin by exact Hsts. unfold Number.of_Z. apply (f_equal Fin).
  unfold spec_agreementRate, spec_adjustedAgreement.
  rewrite Havg, spec_sizePenalty_eq. fold (partiesBeyondTwo c).
  assert (Hb : 0 ≤ partiesBeyondTwo c ≤ 20) by (unfold partiesBeyondTwo; lia).
  assert (Hval : ((1 - Qc_of_Z (partiesBeyondTwo c) * Q2Qc (5 # 100)) * Qc_of_Z 100)%Qc
                 = Qc_of_Z (100 - 5 * partiesBeyondTwo c)).
  { rewrite Z2Qc_inj_sub, Z2Qc_inj_mul, <- Qc_penalty_100. ring. }
  rewrite Qc_max_right.
  - rewrite Hval. apply round_1_decimal_Z.
  - apply (Qcmult_lt_0_le_reg_r _ _ (Qc_of_Z 100)); [by_compute|].
    rewrite Hval, Qcmult_0_l, <- Z2Qc_inj_0. apply Qc_of_Z_le. lia.
Qed.

Lemma agreementRate_unanimous_witness :
  agreementRate (calculateCoalitionAgreement [pA; pB; pD] [statement1])
  = Number.of_Z (100 - 5 * partiesBeyondTwo [pA; pB; pD]).
Proof.
  apply (agreementRate_unanimous [pA; pB; pD] [statement1]).
  - discriminate.
  - simpl. lia.
  - intros st Hst. apply list_elem_of_singleton in Hst as ->.
    split; [discriminate|reflexivity].
Defined.

(** ** The suggestions *)

Lemma findBestCoalitions_sublist parties sts req x :
  x ∈ findBestCoalitions parties sts req → x ∈ scored_candidates parties sts req.
Proof.
  rewrite findBestCoalitions_unfold. intros Hx.
  apply (sublist_subseteq _ _ (sublist_take _ _)) in Hx.
  now rewrite Array_sort_Permutation in Hx.
Qed.

Lemma findBestCoalitions_length parties sts req :
  length (findBestCoalitions parties sts req)
  = Nat.min 5 (length (generateMajorityCoalitions parties (Some req))).
Proof.
  rewrite findBestCoalitions_unfold, length_take.
  rewrite (Permutation_length (Array_sort_Permutation _ _)).
  unfold scored_candidates. now rewrite length_fmap.
Qed.

Lemma shown_penalty c :
  (Z.of_nat (length c) - 2) * 5 = 5 * partiesBeyondTwo c ↔ (2 ≤ length c)%nat.
Proof. unfold partiesBeyondTwo. lia. Qed.

(** X22: What [findBestCoalitions] hands to [displayCoalitionSuggestions]:
    the not-found message is shown exactly when the generator returns no
    coalition; otherwise min(5, number of majority coalitions) items are
    listed, numbered 1, 2, ..., each for a generated coalition, showing its
    seat sum (at least 76), its size and its joined names, and a click
    applies that coalition.  The penalty printed in the detail line,
    (coalitionSize - 2) * 5, is the 5 points per party beyond two of the
    size penalty exactly when the coalition has at least two parties (for
    a single party it prints -5, where the penalty has no point to
    subtract). *)
Theorem displayCoalitionSuggestions_items parties sts req :
  match displayCoalitionSuggestions req (findBestCoalitions parties sts req) with
  | NoSuggestions _ => generateMajorityCoalitions parties (Some req) = []
  | SuggestionList top required items =>
      top = length items ∧ (1 ≤ top ≤ 5)%nat ∧
      top = Nat.min 5 (length (generateMajorityCoalitions parties (Some req))) ∧
      ∀ k item, items !! k = Some item →
        sug_number item = (k + 1)%nat ∧
        sug_onClick item ∈ generateMajorityCoalitions parties (Some req) ∧
        sug_seats item = sum_seats (sug_onClick item) ∧ 76 ≤ sug_seats item ∧
        sug_coalitionSize item = length (sug_onClick item) ∧
        sug_partyNames item = String.concat " + " (name <$> sug_onClick item) ∧
        (sug_penaltyPercent item = 5 * partiesBeyondTwo (sug_onClick item)
         ↔ (2 ≤ sug_coalitionSize item)%nat)
  end.
Proof.
  unfold displayCoalitionSuggestions.
  pose proof (findBestCoalitions_length parties sts req) as Hlen.
  destruct (Nat.eqb_spec (length (findBestCoalitions parties sts req)) 0) as [Hz|Hnz].
  - destruct (generateMajorityCoalitions parties (Some req)); [reflexivity|].
    simpl in Hlen. lia.
  - rewrite length_imap. split; [reflexivity|]. split; [lia|]. split; [exact Hlen|].
    intros k item Hitem. rewrite list_lookup_imap in Hitem.
    destruct (findBestCoalitions parties sts req !! k) as [x|] eqn:Hx; [|discriminate].
    injection Hitem as <-. cbn.
    apply list_elem_of_lookup_2, findBestCoalitions_sublist in Hx.
    unfold scored_candidates in Hx.
    apply list_elem_of_fmap in Hx as (c & -> & Hc). cbn.
    split; [reflexivity|]. split; [exact Hc|]. split; [reflexivity|].
    split; [now apply generateMajorityCoalitions_elem in Hc
              as (_ & combo & _ & _ & _ & _ & Hmaj)|].
    split; [reflexivity|]. split; [reflexivity|apply shown_penalty].
Qed.

(** X23: The drop-down holds the empty value followed by the roster names in
    roster order; every non-empty value is the name of a roster party, and
    with that value selected every coalition that findBestCoalitions ranks
    contains a party of that name. *)
Theorem populateRequiredPartyDropdown_values parties sts v :
  populateRequiredPartyDropdown parties = "" :: (name <$> parties) ∧
  (v ∈ populateRequiredPartyDropdown parties → v ≠ "" →
   (∃ p, p ∈ parties ∧ name p = v) ∧
   ∀ x, x ∈ findBestCoalitions parties sts v →
        ∃ p, p ∈ coalition x ∧ name p = v).
Proof.
  assert (Hvalues : populateRequiredPartyDropdown parties = "" :: (name <$> parties)).
  { unfold populateRequiredPartyDropdown. now rewrite for_of_push. }
  split; [exact Hvalues|]. rewrite Hvalues. intros Hv Hne.
  apply elem_of_cons in Hv as [->|Hv]; [done|].
  apply list_elem_of_fmap in Hv as (p & -> & Hp).
  split; [now exists p|].
  intros x Hx. apply findBestCoalitions_sublist in Hx. unfold scored_candidates in Hx.
  apply list_elem_of_fmap in Hx as (c & -> & Hc). cbn.
  apply generateMajorityCoalitions_elem in Hc
    as (Hfound & combo & _ & _ & _ & -> & _).
  specialize (Hfound (proj2 (truthy_Some _) Hne)).
  destruct (requiredParties_of parties (Some (name p))) as [|q qs] eqn:Hreq; [done|].
  exists q. split; [left|].
  assert (Hq : q ∈ requiredParties_of parties (Some (name p))) by (rewrite Hreq; left).
  apply requiredParties_of_elem in Hq as (_ & _ & Hq). now apply name_is_Some.
Qed.

(** ** The party cards *)

Lemma renderCoalitionParties_cards parties sel :
  renderCoalitionParties parties sel
  = createPartyCard <$> coalitionPartiesList parties sel.
Proof. unfold renderCoalitionParties. now rewrite for_of_push_if. Qed.

Lemma renderParties_cards parties sel :
  renderParties parties sel
  = createPartyCard <$> List.filter (λ p, negb (has sel p)) parties.
Proof.
  unfold renderParties.
  now rewrite (for_of_push_if createPartyCard (λ p, negb (has sel p))).
Qed.

Lemma filter_partition {A : Type} (test : A → bool) (l : list A) :
  List.filter test l ++ List.filter (λ x, negb (test x)) l ≡ₚ l.
Proof.
  induction l as [|x l IH]; [reflexivity|]. simpl.
  destruct (test x); simpl.
  - now rewrite IH.
  - rewrite <- Permutation_middle. now rewrite IH.
Qed.

Lemma card_seats_fmap c : card_seats (createPartyCard <$> c) = sum_seats c.
Proof.
  induction c as [|p c IH]; [reflexivity|].
  rewrite fmap_cons, sum_seats_cons, <- IH. reflexivity.
Qed.

(** X24: renderCoalitionParties and renderParties split the roster: together
    the two containers hold one card per roster entry, a card in the
    coalition container carries a selected name and a card in the other
    container an unselected one, and the seats on the cards of the coalition
    container add up to the number that updateCoalitionBar shows. *)
Theorem render_cards_partition parties sel :
  renderCoalitionParties parties sel ++ renderParties parties sel
    ≡ₚ createPartyCard <$> parties ∧
  (∀ card, card ∈ renderCoalitionParties parties sel → dataset_partyName card ∈ sel) ∧
  (∀ card, card ∈ renderParties parties sel → dataset_partyName card ∉ sel) ∧
  card_seats (renderCoalitionParties parties sel)
    = bar_coalitionSeats (updateCoalitionBar parties sel).
Proof.
  rewrite renderCoalitionParties_cards, renderParties_cards.
  split; [|split; [|split]].
  - rewrite <- fmap_app. unfold coalitionPartiesList.
    now rewrite filter_partition.
  - intros card Hcard. apply list_elem_of_fmap in Hcard as (p & -> & Hp).
    now apply elem_of_coalitionPartiesList in Hp as [_ Hp].
  - intros card Hcard. apply list_elem_of_fmap in Hcard as (p & -> & Hp).
    apply list_elem_of_In, filter_In in Hp as [_ Hp].
    apply negb_true_iff, not_true_iff_false in Hp. now rewrite has_true in Hp.
  - rewrite card_seats_fmap. unfold updateCoalitionBar. cbn [bar_coalitionSeats].
    now rewrite calculateCoalitionSeats_list.
Qed.

(** X25: After the card of a roster party is dropped on the coalition zone,
    the re-rendered coalition container holds its card and the container of
    available parties does not; after a drop on any other zone it is the
    other way round. *)
Theorem handleDrop_moves_card parties sel p zone :
  p ∈ parties → zone ≠ "coalitionParties" →
  (createPartyCard p
     ∈ renderCoalitionParties parties (handleDrop (name p) "coalitionParties" sel) ∧
   createPartyCard p
     ∉ renderParties parties (handleDrop (name p) "coalitionParties" sel)) ∧
  (createPartyCard p ∈ renderParties parties (handleDrop (name p) zone sel) ∧
   createPartyCard p ∉ renderCoalitionParties parties (handleDrop (name p) zone sel)).
Proof.
  intros Hp Hzone.
  assert (Hz : String.eqb zone "coalitionParties" = false) by now apply String.eqb_neq.
  unfold handleDrop. rewrite Hz. simpl.
  rewrite !renderCoalitionParties_cards, !renderParties_cards.
  assert (Hin : name p ∈ ({[name p]} ∪ sel : gset string))
    by (apply elem_of_union; left; now apply elem_of_singleton).
  assert (Hout : name p ∉ (sel ∖ {[name p]} : gset string)).
  { intros H. apply elem_of_difference in H as [_ H]. apply H.
    now apply elem_of_singleton. }
  repeat split.
  - apply list_elem_of_fmap_2, elem_of_coalitionPartiesList. now split.
  - intros H. apply list_elem_of_fmap in H as (q & Hq & Hq').
    apply list_elem_of_In, filter_In in Hq' as [_ Hq'].
    apply negb_true_iff, not_true_iff_false in Hq'. apply Hq'.
    apply has_true. apply (f_equal dataset_partyName) in Hq. simpl in Hq.
    now rewrite <- Hq.
  - apply list_elem_of_fmap_2, list_elem_of_In, filter_In.
    split; [now apply list_elem_of_In|].
    apply negb_true_iff, not_true_iff_false. now rewrite has_true.
  - intros H. apply list_elem_of_fmap in H as (q & Hq & Hq').
    apply elem_of_coalitionPartiesList in Hq' as [_ Hq'].
    apply (f_equal dataset_partyName) in Hq. simpl in Hq.
    apply Hout. now rewrite <- Hq in Hq'.
Qed.

Lemma handleDrop_moves_card_witness :
  createPartyCard pB
    ∈ renderCoalitionParties roster (handleDrop (name pB) "coalitionParties" {["A"]}) ∧
  createPartyCard pB
    ∉ renderParties roster (handleDrop (name pB) "coalitionParties" {["A"]}).
Proof.
  refine (proj1 (handleDrop_moves_card roster {["A"]} pB "availableParties" _ _));
    by_compute.
Defined.

(** ** The loader *)

Section SortBy.
Context {A : Type} (comparefn : A → A → number) (R : A → A → Prop).
Hypothesis R_trans : ∀ a b c, R a b → R b c → R a c.
Hypothesis comparefn_pos : ∀ a b, Number.gt0 (comparefn a b) = true → R b a.
Hypothesis comparefn_nonpos : ∀ a b, Number.gt0 (comparefn a b) = false → R a b.

Lemma sort_insert_StronglySorted a l :
  StronglySorted R l → StronglySorted R (sort_insert comparefn a l).
Proof.
  induction 1 as [|b rest Hrest IH Hb]; simpl.
  - repeat constructor.
  - destruct (Number.gt0 (comparefn a b)) eqn:Hab.
    + constructor; [exact IH|].
      rewrite sort_insert_Permutation. constructor; [now apply comparefn_pos|exact Hb].
    + apply comparefn_nonpos in Hab.
      constructor; [now constructor|]. constructor; [exact Hab|].
      eapply Forall_impl; [exact Hb|]. intros c Hc. now apply (R_trans a b c).
Qed.

Lemma Array_sort_StronglySorted l : StronglySorted R (Array_sort comparefn l).
Proof.
  induction l as [|a l IH]; [constructor|].
  simpl. now apply sort_insert_StronglySorted.
Qed.
End SortBy.

Lemma sub_of_Z x y : (Number.of_Z x - Number.of_Z y)%num = Number.of_Z (x - y).
Proof.
  unfold Number.of_Z, Number.sub. cbn. f_equal.
  now rewrite Z2Qc_inj_sub.
Qed.

Lemma number_truthy_of_Z z : number_truthy (Number.of_Z z) = negb (z =? 0).
Proof.
  unfold number_truthy, Number.of_Z. f_equal.
  destruct (Z.eqb_spec z 0) as [->|Hz].
  - apply bool_decide_eq_true. apply Z2Qc_inj_0.
  - apply bool_decide_eq_false. now apply Qc_of_Z_neq_0.
Qed.

Lemma gt0_of_Z z : Number.gt0 (Number.of_Z z) = (0 <? z).
Proof.
  unfold Number.gt0, Number.of_Z, Number.sign.
  destruct (Z.ltb_spec 0 z) as [Hz|Hz].
  - now rewrite (bool_decide_eq_true_2 _ (Qc_of_Z_pos z Hz)).
  - assert (Hle : (Qc_of_Z z ≤ 0)%Qc) by (rewrite <- Z2Qc_inj_0; now apply Qc_of_Z_le).
    rewrite bool_decide_eq_false_2 by now apply Qcle_not_lt.
    now destruct (bool_decide _).
Qed.

Lemma by_seats_then_votes_gt0 (a b : LoadedParty) :
  Number.gt0 (by_seats_then_votes a b)
  = if seats b - seats a =? 0 then 0 <? votes b - votes a else 0 <? seats b - seats a.
Proof.
  unfold by_seats_then_votes, number_or.
  rewrite !sub_of_Z, number_truthy_of_Z.
  destruct (seats b - seats a =? 0); simpl; apply gt0_of_Z.
Qed.

Lemma PARTY_NAME_MAP_truthy nosName mapped :
  PARTY_NAME_MAP !! nosName = Some mapped → truthy (Some mapped) = true.
Proof.
  intros H.
  assert (Hall : map_Forall (λ _ v, truthy (Some v) = true) PARTY_NAME_MAP) by by_compute.
  exact (Hall nosName mapped H).
Qed.

Lemma loaded_party_Some e :
  short_name e ∉ Object_prototype_keys → is_Some (loaded_party e).
Proof.
  intros He. unfold loaded_party, mappedName_of. cbv zeta.
  destruct (PARTY_NAME_MAP !! short_name e); [eexists; reflexivity|].
  rewrite bool_decide_eq_false_2 by exact He. eexists; reflexivity.
Qed.

Lemma loaded_party_fields e p :
  loaded_party e = Some p →
  seats p = zetels e ∧ votes p = stemmen e ∧ nosName p = short_name e ∧
  party p = name p ∧
  (PARTY_NAME_MAP !! nosName p = Some (name p)
   ∨ PARTY_NAME_MAP !! nosName p = None ∧ name p = nosName p).
Proof.
  unfold loaded_party, mappedName_of. cbv zeta.
  destruct (PARTY_NAME_MAP !! short_name e) as [mapped|] eqn:Hmap.
  - rewrite (PARTY_NAME_MAP_truthy _ _ Hmap). intros [= <-]. cbn.
    repeat split; try reflexivity. now left.
  - case_bool_decide; [discriminate|]. intros [= <-]. cbn.
    repeat split; try reflexivity. now right.
Qed.

(** X26: The roster that loadData builds from the result array (for short
    names that the name map does not inherit from Object.prototype): it
    exists, holds exactly the entries with more than 0 seats, each with its
    seats, votes and original short name, is ordered by seats descending and
    by votes descending among equal seats, and every party has party = name,
    where the name is the mapped name if the short name is in PARTY_NAME_MAP
    and the short name itself otherwise. *)
Theorem loadData_parties_ranked partijen :
  (∀ e, e ∈ partijen → 0 < zetels e → short_name e ∉ Object_prototype_keys) →
  ∃ parties,
    loadData_parties partijen = Some parties ∧
    StronglySorted ranked_before parties ∧
    Forall (λ p : LoadedParty,
              0 < seats p ∧ party p = name p ∧
              (PARTY_NAME_MAP !! nosName p = Some (name p)
               ∨ PARTY_NAME_MAP !! nosName p = None ∧ name p = nosName p)) parties ∧
    (λ p : LoadedParty, (nosName p, seats p, votes p)) <$> parties
      ≡ₚ (λ e, (short_name e, zetels e, stemmen e))
           <$> List.filter (λ e, 0 <? zetels e) partijen.
Proof.
  intros Hkeys. unfold loadData_parties.
  set (kept := List.filter (λ e, 0 <? zetels e) partijen).
  assert (Hkept : ∀ e, e ∈ kept → e ∈ partijen ∧ 0 < zetels e).
  { intros e He. apply list_elem_of_In, filter_In in He as [He Hz].
    split; [now apply list_elem_of_In|now apply Z.ltb_lt]. }
  destruct (mapM loaded_party kept) as [nosParties|] eqn:Hmap.
  2:{ exfalso. apply (proj1 (eq_None_not_Some _) Hmap), mapM_is_Some, Forall_forall.
      intros e He. apply loaded_party_Some.
      destruct (Hkept e He) as [Hin Hz]. now apply Hkeys. }
  exists (Array_sort by_seats_then_votes nosParties).
  apply mapM_Some in Hmap.
  assert (Hfields : Forall (λ p : LoadedParty,
              0 < seats p ∧ party p = name p ∧
              (PARTY_NAME_MAP !! nosName p = Some (name p)
               ∨ PARTY_NAME_MAP !! nosName p = None ∧ name p = nosName p)) nosParties).
  { apply Forall_forall. intros p Hp.
    apply list_elem_of_lookup in Hp as [i Hi].
    destruct (Forall2_lookup_r _ _ _ _ _ Hmap Hi) as (e & He & Hep).
    apply loaded_party_fields in Hep as (Hs & _ & _ & Hparty & Hname).
    apply list_elem_of_lookup_2, Hkept in He as [_ Hz].
    rewrite Hs. now repeat split. }
  assert (Hdata : (λ p : LoadedParty, (nosName p, seats p, votes p)) <$> nosParties
                  = (λ e, (short_name e, zetels e, stemmen e)) <$> kept).
  { clear Hfields Hkept. induction Hmap as [|e p es ps Hep _ IH]; [reflexivity|].
    rewrite !fmap_cons, IH.
    apply loaded_party_fields in Hep as (-> & -> & -> & _). reflexivity. }
  split; [reflexivity|]. split; [|split].
  - apply Array_sort_StronglySorted.
    + unfold ranked_before. intros a b c. lia.
    + intros a b. rewrite by_seats_then_votes_gt0. unfold ranked_before.
      destruct (Z.eqb_spec (seats b - seats a) 0); intros H%Z.ltb_lt; lia.
    + intros a b. rewrite by_seats_then_votes_gt0. unfold ranked_before.
      destruct (Z.eqb_spec (seats b - seats a) 0); intros H%Z.ltb_ge; lia.
  - now rewrite Array_sort_Permutation.
  - now rewrite Array_sort_Permutation, Hdata.
Qed.

Lemma loadData_parties_ranked_witness :
  ∃ parties, loadData_parties sample_partijen = Some parties ∧
             StronglySorted ranked_before parties.
Proof.
  destruct (loadData_parties_ranked sample_partijen) as (parties & Hload & Hsorted & _).
  - intros e He _. revert e He.
    apply (proj1 (Forall_forall (λ e, short_name e ∉ Object_prototype_keys)
                    sample_partijen)).
    by_compute.
  - exists parties. split; [exact Hload|exact Hsorted].
Defined.
